(** * UUID.ts: a shallow embedding of the UUID class and its properties

    The development follows [src/UUID.ts] top to bottom: ECMAScript
    strings and numbers first, then the random source, the field
    aligners, the [UUID] object built by [_init], [equals], the process
    wide version-1 state with [genV1] and [resetState], the time field
    conversion and [parse].

    Conventions of the model.
    - A string is the list of its UTF-16 code units, each one an integer.
    - A number that holds an integer is [Num z]; [NaN] is kept apart.
      Integer arithmetic on doubles is exact below 2^53, which covers
      every value the class computes; the two places where the source
      computes with fractions ([Math.random() * (1 << x)] and
      [(ts / 0x100000000) * 10000]) are modelled where they occur.
    - [Math.random] and [new Date().getTime()] are inputs: a stream of
      rationals that the caller promises to lie in [0, 1), and an
      integer number of milliseconds. *)

From Stdlib Require Import ZArith QArith List Ascii String Bool Lia.
From Stdlib Require Import Uint63 PrimFloat FloatOps SpecFloat.
Import ListNotations.

Local Open Scope Z_scope.

(* ================================================================= *)
(** ** Strings *)

Definition char := Z.
Definition js_string := list char.

(** String literals of the source, as code units. *)
Definition lit (s : string) : js_string :=
  map (fun a => Z.of_N (N_of_ascii a)) (list_ascii_of_string s).

Definition js_length (s : js_string) : Z := Z.of_nat (List.length s).

Fixpoint js_string_eqb (a b : js_string) : bool :=
  match a, b with
  | [], [] => true
  | x :: a', y :: b' => (x =? y) && js_string_eqb a' b'
  | _, _ => false
  end.

(** The characters of [\s] (and of the white space [parseInt] skips):
    TAB, LF, VT, FF, CR, SP, NBSP, U+1680, U+2000..U+200A, U+2028,
    U+2029, U+202F, U+205F, U+3000 and U+FEFF. *)
Definition is_space (c : char) : bool :=
  ((9 <=? c) && (c <=? 13)) || (c =? 32) || (c =? 160) || (c =? 5760)
  || ((8192 <=? c) && (c <=? 8202)) || (c =? 8232) || (c =? 8233)
  || (c =? 8239) || (c =? 8287) || (c =? 12288) || (c =? 65279).

(** [String.prototype.toLowerCase] on the Basic Latin letters.  [parse]
    applies it to the first capture group only, which holds nothing but
    characters the pattern [urn:uuid:|\{] accepted. *)
Definition lower_char (c : char) : char :=
  if (65 <=? c) && (c <=? 90) then c + 32 else c.

Definition toLowerCase (s : js_string) : js_string := map lower_char s.

(* ================================================================= *)
(** ** Numbers *)

Inductive number : Type :=
| NaN : number
| Num : Z -> number.

Definition number_eqb (a b : number) : bool :=
  match a, b with
  | Num x, Num y => x =? y
  | _, _ => false
  end.

(** [ToInt32] and [ToUint32] of an integer. *)
Definition ToUint32 (z : Z) : Z := z mod 2 ^ 32.

Definition ToInt32 (z : Z) : Z :=
  let m := z mod 2 ^ 32 in
  if m <? 2 ^ 31 then m else m - 2 ^ 32.

Definition int32_of (a : number) : Z :=
  match a with NaN => 0 | Num z => ToInt32 z end.

Definition uint32_of (a : number) : Z :=
  match a with NaN => 0 | Num z => ToUint32 z end.

Definition js_add (a b : number) : number :=
  match a, b with
  | Num x, Num y => Num (x + y)
  | _, _ => NaN
  end.

Definition js_sub (a b : number) : number :=
  match a, b with
  | Num x, Num y => Num (x - y)
  | _, _ => NaN
  end.

Definition js_mul (a b : number) : number :=
  match a, b with
  | Num x, Num y => Num (x * y)
  | _, _ => NaN
  end.

(** [a % b]: the sign follows the dividend, and a zero divisor gives NaN. *)
Definition js_rem (a b : number) : number :=
  match a, b with
  | Num x, Num y => if y =? 0 then NaN else Num (Z.rem x y)
  | _, _ => NaN
  end.

Definition js_and (a b : number) : number :=
  Num (Z.land (int32_of a) (int32_of b)).

Definition js_or (a b : number) : number :=
  Num (Z.lor (int32_of a) (int32_of b)).

(** [a >> b] and [a >>> b]: the count is taken modulo 32. *)
Definition js_shr (a b : number) : number :=
  Num (Z.shiftr (int32_of a) (uint32_of b mod 32)).

Definition js_ushr (a b : number) : number :=
  Num (Z.shiftr (uint32_of a) (uint32_of b mod 32)).

(** [a < b], [a != b] and [a !== b] on numbers. *)
Definition js_lt (a b : number) : bool :=
  match a, b with
  | Num x, Num y => x <? y
  | _, _ => false
  end.

Definition js_neq (a b : number) : bool := negb (number_eqb a b).

(** [x || 0] for a number [x]: zero and NaN are falsy. *)
Definition or_zero (x : number) : number :=
  match x with
  | NaN => Num 0
  | Num z => if z =? 0 then Num 0 else x
  end.

(** [x++] and [x += d]. *)
Definition js_incr (x : number) : number := js_add x (Num 1).

(* ================================================================= *)
(** ** Number.prototype.toString(radix) and parseInt *)

(** The digit characters [0-9a-z]. *)
Definition digit_char (d : Z) : char :=
  if d <? 10 then 48 + d else 87 + d.

(** The digits of [n] in base [radix], most significant first, put in
    front of [acc]. *)
Fixpoint to_digits (fuel : nat) (radix n : Z) (acc : js_string) : js_string :=
  match fuel with
  | O => acc
  | S fuel' =>
      let acc' := digit_char (n mod radix) :: acc in
      if n <? radix then acc' else to_digits fuel' radix (n / radix) acc'
  end.

(** A number of binary digits is enough fuel for any radix from 2 on. *)
Definition digits_fuel (n : Z) : nat := S (Z.to_nat (Z.log2 n)).

(** [toString(radix)] of an integer: its digits, after a minus sign
    when it is negative.  This is the string of the integers a binary64
    number holds exactly, of magnitude below 2^53; in radix 10 a number
    from 10^21 on is written with an exponent, which is not modelled. *)
Definition integer_toString (radix z : Z) : js_string :=
  if z <? 0
  then 45 :: to_digits (digits_fuel (- z)) radix (- z) []
  else to_digits (digits_fuel z) radix z [].

Definition Number_toString (num : number) (radix : Z) : js_string :=
  match num with
  | NaN => lit "NaN"
  | Num z => integer_toString radix z
  end.

(** The value of a digit character, in any case. *)
Definition digit_value (c : char) : option Z :=
  if (48 <=? c) && (c <=? 57) then Some (c - 48)
  else if (97 <=? c) && (c <=? 122) then Some (c - 87)
  else if (65 <=? c) && (c <=? 90) then Some (c - 55)
  else None.

(** [parseInt] reads the longest run of digits of the radix and stops
    at the first other character; no digit at all is NaN. *)
Fixpoint parse_digits (radix : Z) (s : js_string) (acc : option Z) : option Z :=
  match s with
  | [] => acc
  | c :: s' =>
      match digit_value c with
      | Some d =>
          if d <? radix
          then parse_digits radix s'
                 (Some (match acc with Some a => a * radix + d | None => d end))
          else acc
      | None => acc
      end
  end.

Fixpoint skip_spaces (s : js_string) : js_string :=
  match s with
  | c :: s' => if is_space c then skip_spaces s' else s
  | [] => []
  end.

(** A leading [0x] or [0X], which [parseInt] drops when the radix is 16
    or is not given. *)
Definition strip_0x (s : js_string) : option js_string :=
  match s with
  | c :: x :: s' =>
      if (c =? 48) && ((x =? 120) || (x =? 88)) then Some s' else None
  | _ => None
  end.

(** A leading [-] or [+]. *)
Definition split_sign (s : js_string) : Z * js_string :=
  match s with
  | c :: r => if c =? 45 then (-1, r) else if c =? 43 then (1, r) else (1, s)
  | [] => (1, s)
  end.

(** [parseInt(s, radix)] as ECMAScript defines it; [radix = None] is
    the one-argument call.  The result is the exact integer, which is
    the double the source gets for every value below 2^53. *)
Definition parseInt (s : js_string) (radix : option Z) : number :=
  let s1 := skip_spaces s in
  let '(sign, s2) := split_sign s1 in
  let R := match radix with Some r => ToInt32 r | None => 0 end in
  if negb (R =? 0) && ((R <? 2) || (36 <? R)) then NaN
  else
    let stripPrefix := (R =? 0) || (R =? 16) in
    let R1 := if R =? 0 then 10 else R in
    let '(R2, s3) :=
      match (if stripPrefix then strip_0x s2 else None) with
      | Some t => (16, t)
      | None => (R1, s2)
      end in
    match parse_digits R2 s3 None with
    | Some v => Num (sign * v)
    | None => NaN
    end.

(** [parseInt(x)] for a number [x]: the argument is converted to a
    string first. *)
Definition parseInt_number (x : number) : number :=
  parseInt (Number_toString x 10) None.

(* ================================================================= *)
(** ** _getIntAligner *)

(** The loop [for (; i > 0; i >>>= 1, z += z) if (i & 1) str = z + str]
    walks the binary digits of [i] from the least significant one.  [i]
    is a count of missing characters, far below 2^32 for every width of
    the class, so [>>>] is the plain halving and [&] the parity; the
    definition follows the loop for such counts only (from 2^32 on the
    two operators take the count modulo 2^32). *)
Fixpoint pad_loop (i : positive) (z str : js_string) : js_string :=
  match i with
  | xH => z ++ str
  | xO i' => pad_loop i' (z ++ z) str
  | xI i' => pad_loop i' (z ++ z) (z ++ str)
  end.

Definition _getIntAligner (radix : Z) (num : number) (length : Z) : js_string :=
  let str := Number_toString num radix in
  match length - js_length str with
  | Zpos i => pad_loop i (lit "0") str
  | _ => str
  end.

Definition _hexAligner := _getIntAligner 16.
Definition _binAligner := _getIntAligner 2.

(* ================================================================= *)
(** ** The random source *)

(** [Math.random()] draws from a stream supplied by the environment.  A
    computation that draws is a function of the stream that returns the
    rest of it. *)
Definition entropy := nat -> Q.

Definition Rand (A : Type) : Type := entropy -> A * entropy.

Definition ret {A : Type} (a : A) : Rand A := fun e => (a, e).

Definition bind {A B : Type} (m : Rand A) (k : A -> Rand B) : Rand B :=
  fun e => let (a, e') := m e in k a e'.

Notation "x <- m ;; k" := (bind m (fun x => k))
  (at level 61, m at next level, right associativity).

Definition Math_random : Rand Q :=
  fun e => (e 0%nat, fun n => e (S n)).

(** What the environment promises of [Math.random]. *)
Definition in_unit_interval (e : entropy) : Prop :=
  forall n, (0 <= e n)%Q /\ (e n < 1)%Q.

(** The integer part of a real, towards zero, as [ToInt32] takes it. *)
Definition Qtruncate (q : Q) : Z := Z.quot (Qnum q) (Zpos (Qden q)).

(** [1 << x] on integers. *)
Definition shl32 (a x : Z) : Z :=
  ToInt32 (Z.shiftl (ToInt32 a) (ToUint32 x mod 32)).

(** [0 | Math.random() * k] for an integer [k].  The product of a
    double in [0, 1) by a power of two is exact. *)
Definition random_below (k : Z) : Rand number :=
  r <- Math_random ;;
  ret (Num (Z.lor (ToInt32 0) (ToInt32 (Qtruncate (r * inject_Z k))))).

Definition _getRandomInt (x : Z) : Rand number :=
  if x <? 0 then ret NaN
  else if x <=? 30 then random_below (shl32 1 x)
  else if x <=? 53 then
    a <- random_below (shl32 1 30) ;;
    b <- random_below (shl32 1 (x - 30)) ;;
    ret (js_add a (js_mul b (Num (shl32 1 30))))
  else ret NaN.

(* ================================================================= *)
(** ** The UUID object *)

Definition FIELD_NAMES : list string :=
  ["timeLow"; "timeMid"; "timeHiAndVersion";
   "clockSeqHiAndReserved"; "clockSeqLow"; "node"]%string.

Definition FIELD_SIZES : list Z := [32; 16; 16; 8; 8; 48].

Definition _tsRatio : Q := 1 # 4.

(** The three field arrays are kept by index; the source stores every
    entry a second time under its name of [FIELD_NAMES]. *)
Record UUID : Type := mkUUID {
  intFields : list number;
  bitFields : list js_string;
  hexFields : list js_string;
  version : number;
  bitString : js_string;
  hexString : js_string;
  hexNoDelim : js_string;
  urn : js_string
}.

Definition join_empty (l : list js_string) : js_string := List.concat l.

Definition _init (timeLow timeMid timeHiAndVersion
                  clockSeqHiAndReserved clockSeqLow node : number) : UUID :=
  let arguments :=
    [timeLow; timeMid; timeHiAndVersion;
     clockSeqHiAndReserved; clockSeqLow; node] in
  let ints := map (fun a => parseInt_number (or_zero a)) arguments in
  let sized := combine ints FIELD_SIZES in
  let bits := map (fun p => _binAligner (fst p) (snd p)) sized in
  let hexs := map (fun p => _hexAligner (fst p) (snd p / 4)) sized in
  let h := fun i => nth i hexs [] in
  let hexString :=
    h 0%nat ++ lit "-" ++ h 1%nat ++ lit "-" ++ h 2%nat
      ++ lit "-" ++ h 3%nat ++ h 4%nat ++ lit "-" ++ h 5%nat in
  {| intFields := ints;
     bitFields := bits;
     hexFields := hexs;
     version := js_and (js_shr (nth 2 ints NaN) (Num 12)) (Num 0xF);
     bitString := join_empty bits;
     hexNoDelim := join_empty hexs;
     hexString := hexString;
     urn := lit "urn:uuid:" ++ hexString |}.

(** The field of a UUID by its name. *)
Fixpoint index_of (name : string) (names : list string) (i : nat) : option nat :=
  match names with
  | [] => None
  | n :: rest => if String.eqb n name then Some i else index_of name rest (S i)
  end.

Definition intField (u : UUID) (name : string) : option number :=
  match index_of name FIELD_NAMES 0 with
  | Some i => nth_error (intFields u) i
  | None => None
  end.

(** The values [equals] can be handed at run time. *)
Inductive js_value : Type :=
| JsUndefined : js_value
| JsNull : js_value
| JsBoolean : bool -> js_value
| JsNumber : number -> js_value
| JsString : js_string -> js_value
| JsObject : js_value              (* an object that is not a UUID *)
| JsUUID : UUID -> js_value.

Definition instanceof_UUID (v : js_value) : bool :=
  match v with
  | JsUUID _ => true
  | _ => false
  end.

(** [a !== b] on two array entries; an index out of range reads
    [undefined]. *)
Definition strict_neq (a b : option number) : bool :=
  match a, b with
  | Some x, Some y => js_neq x y
  | None, None => false
  | _, _ => true
  end.

Definition equals (this : UUID) (uuid : js_value) : bool :=
  match uuid with
  | JsUUID u =>
      forallb
        (fun i => negb (strict_neq (nth_error (intFields this) i)
                                   (nth_error (intFields u) i)))
        (seq 0 6)
  | _ => false
  end.

Definition toString (this : UUID) : js_string := hexString this.

(* ================================================================= *)
(** ** The version-1 state and the time fields *)

Record UUIDState : Type := mkState {
  timestamp : number;
  sequence : number;
  node : number;
  tick : number
}.

Definition set_sequence (st : UUIDState) (v : number) : UUIDState :=
  {| timestamp := timestamp st; sequence := v;
     node := node st; tick := tick st |}.

Definition set_tick (st : UUIDState) (v : number) : UUIDState :=
  {| timestamp := timestamp st; sequence := sequence st;
     node := node st; tick := v |}.

Definition set_timestamp (st : UUIDState) (v : number) : UUIDState :=
  {| timestamp := v; sequence := sequence st;
     node := node st; tick := tick st |}.

(** [new function UUIDState() { ... }]: the assignments in source
    order, each [rand] drawing from the stream in turn. *)
Definition new_UUIDState : Rand UUIDState :=
  s <- _getRandomInt 14 ;;
  n8 <- _getRandomInt 8 ;;
  n40 <- _getRandomInt 40 ;;
  t <- _getRandomInt 4 ;;
  ret {| timestamp := Num 0;
         sequence := s;
         node := js_add (js_mul (js_or n8 (Num 1)) (Num 0x10000000000)) n40;
         tick := t |}.

(** [UUID._state = new UUID._state.constructor()]: the old state is
    dropped. *)
Definition resetState (st : UUIDState) : Rand UUIDState := new_UUIDState.

(** [Date.UTC(1582, 9, 15)]: 141427 days before 1970-01-01. *)
Definition Date_UTC_1582_10_15 : Z := - (141427 * 86400000).

(** Rounding of an integer to 53 significant bits, to nearest and ties
    to even: what a binary64 operation does to an exact result that is
    [n] times a power of two. *)
Definition round53 (n : Z) : Z :=
  let a := Z.abs n in
  let e := Z.log2 a - 52 in
  if e <=? 0 then n
  else
    let q := a / 2 ^ e in
    let r := a mod 2 ^ e in
    let half := 2 ^ (e - 1) in
    let q' := if (half <? r) || ((half =? r) && Z.odd q) then q + 1 else q in
    Z.sgn n * (q' * 2 ^ e).

(** [(ts / 0x100000000) * 10000] in binary64.  The quotient is exact
    (an integer below 2^53 divided by a power of two); the product is
    the exact value [ts * 10000 / 2^32 = (ts * 625) / 2^28] rounded to
    53 significant bits.  [None] stands for NaN. *)
Definition scaled_high (ts : number) : option Q :=
  match ts with
  | NaN => None
  | Num z => Some (Qmake (round53 (z * 625)) (2 ^ 28)%positive)
  end.

(** [x & b] for a real [x]. *)
Definition real_and (x : option Q) (b : number) : number :=
  Num (Z.land (match x with
               | Some q => ToInt32 (Qtruncate q)
               | None => 0
               end)
              (int32_of b)).

Record TimeFields : Type := mkTimeFields {
  low : number;
  mid : number;
  hi : number;
  tf_timestamp : number
}.

Definition _getTimeFieldValues (time : number) : TimeFields :=
  let ts := js_sub time (Num Date_UTC_1582_10_15) in
  let hm := real_and (scaled_high ts) (Num 0xFFFFFFF) in
  {| low := js_rem (js_mul (js_and ts (Num 0xFFFFFFF)) (Num 10000))
                   (Num 0x100000000);
     mid := js_and hm (Num 0xFFFF);
     hi := js_ushr hm (Num 16);
     tf_timestamp := ts |}.

Definition Qlt_bool (a b : Q) : bool := negb (Qle_bool b a).

(** [genV1]: [now] is the value [new Date().getTime()] returns. *)
Definition genV1 (now : Z) (st : UUIDState) : Rand (UUID * UUIDState) :=
  st1 <- (if js_neq (Num now) (timestamp st) then
            let st' :=
              if js_lt (Num now) (timestamp st)
              then set_sequence st (js_incr (sequence st))
              else st in
            t <- _getRandomInt 4 ;;
            ret (set_tick (set_timestamp st' (Num now)) t)
          else
            r <- Math_random ;;
            if Qlt_bool r _tsRatio && js_lt (tick st) (Num 9984)
            then
              d <- _getRandomInt 4 ;;
              ret (set_tick st (js_add (tick st) (js_add (Num 1) d)))
            else ret (set_sequence st (js_incr (sequence st)))) ;;
  let tf := _getTimeFieldValues (timestamp st1) in
  let tl := js_add (low tf) (tick st1) in
  let thav := js_or (js_and (hi tf) (Num 0xFFF)) (Num 0x1000) in
  let st2 := set_sequence st1 (js_and (sequence st1) (Num 0x3FFF)) in
  let cshar := js_or (js_ushr (sequence st2) (Num 8)) (Num 0x80) in
  let csl := js_and (sequence st2) (Num 0xFF) in
  ret (_init tl (mid tf) thav cshar csl (node st2), st2).

(** The states the process can be in: the one built when the class is
    loaded, and those [genV1] and [resetState] lead to. *)
Inductive reachable : UUIDState -> Prop :=
| reachable_new : forall e,
    in_unit_interval e -> reachable (fst (new_UUIDState e))
| reachable_genV1 : forall st now e,
    reachable st -> in_unit_interval e ->
    reachable (snd (fst (genV1 now st e)))
| reachable_reset : forall st e,
    reachable st -> in_unit_interval e ->
    reachable (fst (resetState st e)).

(* ================================================================= *)
(** ** parse *)

(** [[0-9a-f]] under the [i] flag. *)
Definition is_hex (c : char) : bool :=
  ((48 <=? c) && (c <=? 57)) || ((97 <=? c) && (c <=? 102))
  || ((65 <=? c) && (c <=? 70)).

Notation "' p <-- m ;; k" :=
  (match m with Some p => k | None => None end)
  (at level 61, p pattern, m at next level, right associativity).

Definition orelse {A : Type} (a b : option A) : option A :=
  match a with
  | Some _ => a
  | None => b
  end.

(** [[0-9a-f]{n}]: the group and the rest of the input. *)
Fixpoint take_hex (n : nat) (s : js_string) : option (js_string * js_string) :=
  match n with
  | O => Some ([], s)
  | S n' =>
      match s with
      | c :: s' =>
          if is_hex c
          then '(g, rest) <-- take_hex n' s' ;; Some (c :: g, rest)
          else None
      | [] => None
      end
  end.

Definition take_char (c : char) (s : js_string) : option js_string :=
  match s with
  | x :: s' => if x =? c then Some s' else None
  | [] => None
  end.

(** A literal of lower-case letters and punctuation under the [i]
    flag: a character matches when its canonical form does, and no
    character outside Basic Latin has a Basic Latin canonical form. *)
Fixpoint take_ci (pat s : js_string) : option (js_string * js_string) :=
  match pat with
  | [] => Some ([], s)
  | p :: pat' =>
      match s with
      | c :: s' =>
          if lower_char c =? p
          then '(g, rest) <-- take_ci pat' s' ;; Some (c :: g, rest)
          else None
      | [] => None
      end
  end.

(** The array [exec] returns: groups 1 and 8 are [undefined] ([None])
    when they took no part in the match. *)
Record RegExpMatch : Type := mkMatch {
  group1 : option js_string;
  group2 : js_string;
  group3 : js_string;
  group4 : js_string;
  group5 : js_string;
  group6 : js_string;
  group7 : js_string;
  group8 : option js_string
}.

(** [(\})?\s*$]: the brace is tried first. *)
Definition match_tail (s : js_string) : option (option js_string) :=
  orelse
    ('s' <-- take_char 125 s ;;
     if forallb is_space s' then Some (Some (lit "}")) else None)
    (if forallb is_space s then Some None else None).

(** The pattern from the first hex group on. *)
Definition match_body (l : option js_string) (s : js_string)
  : option RegExpMatch :=
  '(g2, s) <-- take_hex 8 s ;;
  's <-- take_char 45 s ;;
  '(g3, s) <-- take_hex 4 s ;;
  's <-- take_char 45 s ;;
  '(g4, s) <-- take_hex 4 s ;;
  's <-- take_char 45 s ;;
  '(g5, s) <-- take_hex 2 s ;;
  '(g6, s) <-- take_hex 2 s ;;
  's <-- take_char 45 s ;;
  '(g7, s) <-- take_hex 12 s ;;
  't <-- match_tail s ;;
  Some (mkMatch l g2 g3 g4 g5 g6 g7 t).

(** [p.exec(strId)].  The leading [\s*] takes every white space
    character: giving one back leaves a character that neither the
    optional group nor a hex digit accepts.  The alternatives of the
    optional group are tried in order, then the group is skipped. *)
Definition exec (strId : js_string) : option RegExpMatch :=
  let s := skip_spaces strId in
  orelse
    ('(l, rest) <-- take_ci (lit "urn:uuid:") s ;; match_body (Some l) rest)
    (orelse
       ('rest <-- take_char 123 s ;; match_body (Some (lit "{")) rest)
       (match_body None s)).

(** [x || ""] for a capture group. *)
Definition or_empty (x : option js_string) : js_string :=
  match x with
  | Some s => s
  | None => []
  end.

(** [parse]; [None] is the [null] result. *)
Definition parse (strId : js_string) : option UUID :=
  match exec strId with
  | Some r =>
      let l := or_empty (group1 r) in
      let t := or_empty (group8 r) in
      if js_string_eqb (l ++ t) (lit "")
         || (js_string_eqb l (lit "{") && js_string_eqb t (lit "}"))
         || (js_string_eqb (toLowerCase l) (lit "urn:uuid:")
             && js_string_eqb t (lit ""))
      then Some (_init (parseInt (group2 r) (Some 16))
                       (parseInt (group3 r) (Some 16))
                       (parseInt (group4 r) (Some 16))
                       (parseInt (group5 r) (Some 16))
                       (parseInt (group6 r) (Some 16))
                       (parseInt (group7 r) (Some 16)))
      else None
  | None => None
  end.

Definition Empty : option UUID :=
  parse (lit "00000000-0000-0000-0000-000000000000").

(* ================================================================= *)
(** ** generate and genV4 *)

(** [UUID.generate(o)] as the class declares it (the argument is not
    read): the five groups are drawn and formatted from left to right. *)
Definition generate : Rand js_string :=
  a <- _getRandomInt 32 ;;
  b <- _getRandomInt 16 ;;
  c <- _getRandomInt 12 ;;
  d <- _getRandomInt 14 ;;
  f <- _getRandomInt 48 ;;
  ret (_hexAligner a 8 ++ lit "-"
         ++ _hexAligner b 4 ++ lit "-"
         ++ _hexAligner (js_or (Num 0x4000) c) 4 ++ lit "-"
         ++ _hexAligner (js_or (Num 0x8000) d) 4 ++ lit "-"
         ++ _hexAligner f 12).

Definition genV4 : Rand UUID :=
  a <- _getRandomInt 32 ;;
  b <- _getRandomInt 16 ;;
  c <- _getRandomInt 12 ;;
  d <- _getRandomInt 6 ;;
  e <- _getRandomInt 8 ;;
  f <- _getRandomInt 48 ;;
  ret (_init a b (js_or (Num 0x4000) c) (js_or (Num 0x80) d) e f).

(* ================================================================= *)
(** ** Inputs for the examples *)

(** A stream of draws given by its first elements; zero afterwards. *)
Definition entropy_of (l : list Q) : entropy := fun n => nth n l 0%Q.

(** The same product on the primitive binary64 numbers. *)
Definition float_of_Z (z : Z) : float :=
  if z <? 0 then PrimFloat.opp (PrimFloat.of_uint63 (Uint63.of_Z (- z)))
  else PrimFloat.of_uint63 (Uint63.of_Z z).

Definition float_truncate (f : float) : option Z :=
  match Prim2SF f with
  | S754_zero _ => Some 0
  | S754_finite s m e =>
      let v := if 0 <=? e then Zpos m * 2 ^ e else Z.quot (Zpos m) (2 ^ (- e)) in
      Some (if s then - v else v)
  | _ => None
  end.

Definition binary64_scaled_high (ts : Z) : option Z :=
  float_truncate
    (PrimFloat.mul (PrimFloat.div (float_of_Z ts) (float_of_Z 4294967296))
                   (float_of_Z 10000)).

Definition binary64_agrees (ts : Z) : bool :=
  match binary64_scaled_high ts with
  | Some v => v =? Z.quot (round53 (ts * 625)) (2 ^ 28)
  | None => false
  end.

(** A state before a reset, and a stream whose first five draws, as
    many as the constructor of the state makes, are one half. *)
Definition used_state : UUIDState :=
  mkState (Num 1793122184559) (Num 7) (Num 0x10000000001) (Num 9).

Definition halves : entropy := entropy_of [1 # 2; 1 # 2; 1 # 2; 1 # 2; 1 # 2]%Q.

(** The state after a first call at time 1000 when the sequence drawn
    at load time is the largest one. *)
Definition top_sequence_entropy : entropy := entropy_of [16383 # 16384]%Q.

Definition top_sequence_state : UUIDState :=
  snd (fst (genV1 1000 (fst (new_UUIDState top_sequence_entropy))
                  (entropy_of []))).

(** Two calls within the millisecond 2026-10-27T17:29:44.559Z, whose
    [low] time field is 0xFFFFFFF0: the first draws the tick 15, the
    second advances it by one. *)
Definition carry_time : Z := 1793122184559.

Definition carry_state : UUIDState :=
  snd (fst (genV1 carry_time (fst (new_UUIDState halves))
                  (entropy_of [15 # 16]%Q))).

Definition carry_uuid : UUID :=
  fst (fst (genV1 carry_time carry_state (entropy_of [0; 0]%Q))).

(** The millisecond 2039-06-21T16:15:07.631Z. *)
Definition rounding_time : Z := 2192285707631.

(** An identifier built with a 33-bit [timeLow]. *)
Definition wide_uuid : UUID :=
  _init (Num (2 ^ 32)) (Num 0) (Num 0) (Num 0) (Num 0) (Num 0).

(** [n] further calls at one clock value, each drawing 0 and then
    15/16, so that the tick advances by 16 as long as it may; and the
    state after 624 such calls in the millisecond 1000. *)
Fixpoint genV1_repeat (n : nat) (now : Z) (st : UUIDState) : UUIDState :=
  match n with
  | O => st
  | S n' =>
      genV1_repeat n' now
        (snd (fst (genV1 now st (entropy_of [0; 15 # 16]%Q))))
  end.

Definition spent_state : UUIDState :=
  genV1_repeat 624 1000
    (snd (fst (genV1 1000 (fst (new_UUIDState halves)) halves))).

(** The all-zero identifier. *)
Definition nil_uuid : UUID := _init (Num 0) (Num 0) (Num 0) (Num 0) (Num 0) (Num 0).

(* ================================================================= *)
(** ** Notions used in the statements *)

(** The time fields as the specification writes them, in exact
    arithmetic: [delta = now_ms - gregorian_epoch_ms],
    [highPart = ((delta / 2^32) * 10000) & 0xFFFFFFF],
    [low = ((delta & 0xFFFFFFF) * 10000) mod 2^32],
    [mid = highPart & 0xFFFF], [hi = highPart >> 16]. *)
Definition spec_delta (now_ms : Z) : Z := now_ms - Date_UTC_1582_10_15.

Definition spec_highPart (delta : Z) : Z :=
  Z.land (Qtruncate ((inject_Z delta / inject_Z (2 ^ 32)) * inject_Z 10000))
         0xFFFFFFF.

Definition spec_low (delta : Z) : Z :=
  (Z.land delta 0xFFFFFFF * 10000) mod 2 ^ 32.

Definition spec_mid (delta : Z) : Z := Z.land (spec_highPart delta) 0xFFFF.

Definition spec_hi (delta : Z) : Z := Z.shiftr (spec_highPart delta) 16.

(** The grammar of the specification,
    [["urn:uuid:" | "{"]? 8hex "-" 4hex "-" 4hex "-" 2hex 2hex "-" 12hex ["}"]?]
    with optional white space around it and letters of either case. *)
Definition hex_group (n : nat) (g : js_string) : Prop :=
  List.length g = n /\ forallb is_hex g = true.

Definition white (w : js_string) : Prop := forallb is_space w = true.

Definition grammar_prefix (pre : js_string) : Prop :=
  pre = [] \/ pre = lit "{" \/ toLowerCase pre = lit "urn:uuid:".

Definition grammar_suffix (suf : js_string) : Prop :=
  suf = [] \/ suf = lit "}".

Inductive grammar (pre suf : js_string) : js_string -> Prop :=
| grammar_intro : forall w1 g2 g3 g4 g5 g6 g7 w2,
    white w1 -> white w2 ->
    grammar_prefix pre -> grammar_suffix suf ->
    hex_group 8 g2 -> hex_group 4 g3 -> hex_group 4 g4 ->
    hex_group 2 g5 -> hex_group 2 g6 -> hex_group 12 g7 ->
    grammar pre suf
      (w1 ++ pre ++ g2 ++ lit "-" ++ g3 ++ lit "-" ++ g4 ++ lit "-"
          ++ g5 ++ g6 ++ lit "-" ++ g7 ++ suf ++ w2).

(** The pairings of prefix and suffix the specification accepts. *)
Definition consistent (pre suf : js_string) : Prop :=
  (pre = [] /\ suf = [])
  \/ (pre = lit "{" /\ suf = lit "}")
  \/ (toLowerCase pre = lit "urn:uuid:" /\ suf = []).

(** An identifier as the data model has it: six integer fields. *)
Definition six_integers (u : UUID) : Prop :=
  exists a b c d e f,
    intFields u = [Num a; Num b; Num c; Num d; Num e; Num f].

(** The identifier [genV1] builds from the state it leaves behind. *)
Definition uuid_of_state (st : UUIDState) : UUID :=
  let tf := _getTimeFieldValues (timestamp st) in
  _init (js_add (low tf) (tick st)) (mid tf)
        (js_or (js_and (hi tf) (Num 0xFFF)) (Num 0x1000))
        (js_or (js_ushr (sequence st) (Num 8)) (Num 0x80))
        (js_and (sequence st) (Num 0xFF))
        (node st).

(** What holds of the state between calls. *)
Definition state_ok (st : UUIDState) : Prop :=
  exists ts s n t,
    st = mkState (Num ts) (Num s) (Num n) (Num t)
    /\ 0 <= s < 2 ^ 14 /\ 0 <= n < 2 ^ 48 /\ Z.testbit n 40 = true
    /\ 0 <= t < 10000.

(** The value of a run of hex digits read after the value [acc]. *)
Fixpoint hex_value (acc : Z) (g : js_string) : Z :=
  match g with
  | [] => acc
  | c :: g' =>
      hex_value (acc * 16 + match digit_value c with Some d => d | None => 0 end)
                g'
  end.

(** The hex digits [toString] writes: [0-9a-f]. *)
Definition is_lower_hex (c : char) : bool :=
  ((48 <=? c) && (c <=? 57)) || ((97 <=? c) && (c <=? 102)).

(** Six integers within the declared widths of the fields. *)
Definition in_width (a b c d e f : Z) : Prop :=
  0 <= a < 2 ^ 32 /\ 0 <= b < 2 ^ 16 /\ 0 <= c < 2 ^ 16
  /\ 0 <= d < 2 ^ 8 /\ 0 <= e < 2 ^ 8 /\ 0 <= f < 2 ^ 48.

(** Draws of the random source for which [_getRandomInt x] returns [v]:
    one draw for a width of up to 30 bits, two above, the low 30 bits
    first. *)
Definition draws_for (x v : Z) : list Q :=
  if x <=? 30 then [Qmake v (Z.to_pos (2 ^ x))]
  else [Qmake (v mod 2 ^ 30) (Z.to_pos (2 ^ 30));
        Qmake (v / 2 ^ 30) (Z.to_pos (2 ^ (x - 30)))].

(** The draws the constructor of [UUIDState] consumes, in its order:
    sequence, the first byte of the node, the rest of the node, tick. *)
Definition state_draws (s n8 n40 t : Z) : list Q :=
  draws_for 14 s ++ draws_for 8 n8 ++ draws_for 40 n40 ++ draws_for 4 t.

(** The integers a binary64 number holds exactly and that
    [Number.prototype.toString] writes digit by digit. *)
Definition safe_integer (a : number) : Prop :=
  match a with
  | NaN => True
  | Num z => - 2 ^ 53 < z < 2 ^ 53
  end.

(* ================================================================= *)
(** * Properties *)

(** ** Machine integers *)

Lemma ToInt32_small : forall z, - 2 ^ 31 <= z < 2 ^ 31 -> ToInt32 z = z.
Proof.
  intros z Hz. unfold ToInt32.
  change (2 ^ 32) with 4294967296. change (2 ^ 31) with 2147483648 in *.
  destruct (Z.ltb_spec (z mod 4294967296) 2147483648);
    Z.div_mod_to_equations; lia.
Qed.

Lemma ToUint32_small : forall z, 0 <= z < 2 ^ 32 -> ToUint32 z = z.
Proof. intros z Hz. unfold ToUint32. now apply Z.mod_small. Qed.

Lemma ToInt32_congr : forall z k, 0 <= k <= 32 ->
  ToInt32 z mod 2 ^ k = z mod 2 ^ k.
Proof.
  intros z k Hk. unfold ToInt32.
  assert (E : 2 ^ 32 = 2 ^ k * 2 ^ (32 - k)).
  { rewrite <- Z.pow_add_r by lia. f_equal. lia. }
  assert (Hp : 0 < 2 ^ k) by (apply Z.pow_pos_nonneg; lia).
  assert (M : (z mod 2 ^ 32) mod 2 ^ k = z mod 2 ^ k).
  { rewrite E. rewrite Z.rem_mul_r by (try apply Z.pow_pos_nonneg; lia).
    rewrite Z.mul_comm, Z.mod_add by lia. apply Z.mod_mod. lia. }
  destruct (z mod 2 ^ 32 <? 2 ^ 31); [exact M|].
  rewrite <- M. rewrite E at 2.
  replace (z mod 2 ^ 32 - 2 ^ k * 2 ^ (32 - k))
    with (z mod 2 ^ 32 + (- 2 ^ (32 - k)) * 2 ^ k) by ring.
  apply Z.mod_add. lia.
Qed.

(** A mask of [k] low bits sees its operand modulo [2^k] only. *)
Lemma land_ToInt32_ones : forall z k, 0 <= k <= 32 ->
  Z.land (ToInt32 z) (Z.ones k) = z mod 2 ^ k.
Proof.
  intros z k Hk. rewrite Z.land_ones by lia. now apply ToInt32_congr.
Qed.

Lemma shl32_1 : forall x, 0 <= x <= 30 -> shl32 1 x = 2 ^ x.
Proof.
  intros x Hx. unfold shl32.
  rewrite (ToInt32_small 1) by (change (2 ^ 31) with 2147483648; lia).
  rewrite ToUint32_small by (change (2 ^ 32) with 4294967296; lia).
  rewrite Z.mod_small by lia. rewrite Z.shiftl_1_l.
  apply ToInt32_small.
  assert (0 < 2 ^ x) by (apply Z.pow_pos_nonneg; lia).
  assert (2 ^ x <= 2 ^ 30) by (apply Z.pow_le_mono_r; lia).
  change (2 ^ 31) with 2147483648. change (2 ^ 30) with 1073741824 in *. lia.
Qed.

(* ================================================================= *)
(** ** Digits *)

Lemma digit_value_digit_char : forall d, 0 <= d < 36 ->
  digit_value (digit_char d) = Some d.
Proof.
  intros d Hd. unfold digit_value, digit_char.
  destruct (Z.ltb_spec d 10).
  - replace ((48 <=? 48 + d) && (48 + d <=? 57)) with true
      by (symmetry; apply andb_true_intro; split; apply Z.leb_le; lia).
    f_equal. lia.
  - replace ((48 <=? 87 + d) && (87 + d <=? 57)) with false
      by (symmetry; apply andb_false_intro2; apply Z.leb_gt; lia).
    replace ((97 <=? 87 + d) && (87 + d <=? 122)) with true
      by (symmetry; apply andb_true_intro; split; apply Z.leb_le; lia).
    f_equal. lia.
Qed.

Lemma to_digits_acc : forall fuel radix n acc,
  to_digits fuel radix n acc = to_digits fuel radix n [] ++ acc.
Proof.
  induction fuel as [|fuel IH]; intros radix n acc; simpl; [reflexivity|].
  destruct (n <? radix); [reflexivity|].
  rewrite IH. rewrite (IH _ _ [_]). now rewrite <- app_assoc.
Qed.

(** Reading back the digits of [n]: the accumulator that precedes them
    is empty or holds leading zeros only. *)
Lemma parse_digits_to_digits : forall radix, 2 <= radix <= 36 ->
  forall fuel n rest acc,
    0 <= n < 2 ^ Z.of_nat (S fuel) ->
    acc = None \/ acc = Some 0 ->
    parse_digits radix (to_digits (S fuel) radix n [] ++ rest) acc
    = parse_digits radix rest (Some n).
Proof.
  intros radix Hr.
  assert (Hstep : forall d rest acc, 0 <= d < radix ->
            acc = None \/ acc = Some 0 ->
            parse_digits radix (digit_char d :: rest) acc
            = parse_digits radix rest (Some d)).
  { intros d rest acc Hd Hacc. simpl.
    rewrite digit_value_digit_char by lia.
    destruct (Z.ltb_spec d radix); [|lia].
    destruct Hacc as [-> | ->]; [reflexivity|].
    now rewrite Z.mul_0_l, Z.add_0_l. }
  induction fuel as [|fuel IH]; intros n rest acc Hn Hacc.
  - change (2 ^ Z.of_nat 1) with 2 in Hn. simpl.
    destruct (Z.ltb_spec n radix); [|lia].
    rewrite Z.mod_small by lia. now apply Hstep.
  - change (to_digits (S (S fuel)) radix n [])
      with (let acc' := [digit_char (n mod radix)] in
            if n <? radix then acc'
            else to_digits (S fuel) radix (n / radix) acc').
    cbv zeta. destruct (Z.ltb_spec n radix).
    + rewrite Z.mod_small by lia. now apply Hstep.
    + rewrite to_digits_acc, <- app_assoc. cbn [app].
      rewrite IH; try assumption.
      * simpl. rewrite digit_value_digit_char
          by (pose proof (Z.mod_pos_bound n radix); lia).
        destruct (Z.ltb_spec (n mod radix) radix);
          [|pose proof (Z.mod_pos_bound n radix); lia].
        do 2 f_equal. rewrite Z.mul_comm. symmetry.
        apply Z.div_mod. lia.
      * rewrite Nat2Z.inj_succ, Z.pow_succ_r in Hn by lia.
        split; [apply Z.div_pos; lia|].
        apply Z.div_lt_upper_bound; [lia|].
        assert (0 < 2 ^ Z.of_nat (S fuel)) by (apply Z.pow_pos_nonneg; lia).
        nia.
Qed.

Lemma digits_fuel_enough : forall n, 0 <= n ->
  n < 2 ^ Z.of_nat (digits_fuel n).
Proof.
  intros n Hn. unfold digits_fuel.
  rewrite Nat2Z.inj_succ, Z2Nat.id by apply Z.log2_nonneg.
  destruct (Z.eq_dec n 0) as [-> | Hne]; [reflexivity|].
  apply Z.log2_spec. lia.
Qed.

Lemma digit_char_is_hex : forall d, 0 <= d < 16 -> is_hex (digit_char d) = true.
Proof.
  intros d Hd. unfold is_hex, digit_char.
  destruct (Z.ltb_spec d 10).
  - replace ((48 <=? 48 + d) && (48 + d <=? 57)) with true; [reflexivity|].
    symmetry; apply andb_true_intro; split; apply Z.leb_le; lia.
  - replace ((97 <=? 87 + d) && (87 + d <=? 102)) with true;
      [now rewrite orb_true_r|].
    symmetry; apply andb_true_intro; split; apply Z.leb_le; lia.
Qed.

(** What being a hex digit excludes. *)
Lemma is_hex_range : forall c, is_hex c = true ->
  48 <= c <= 57 \/ 97 <= c <= 102 \/ 65 <= c <= 70.
Proof.
  intros c H. unfold is_hex in H.
  repeat (apply orb_prop in H; destruct H as [H | H]);
    apply andb_prop in H; destruct H as [H1 H2];
    apply Z.leb_le in H1; apply Z.leb_le in H2; lia.
Qed.

Lemma is_hex_not_space : forall c, is_hex c = true -> is_space c = false.
Proof.
  intros c H. apply is_hex_range in H. unfold is_space.
  repeat match goal with
         | |- context [?a <=? ?b] => destruct (Z.leb_spec a b); try lia
         | |- context [?a =? ?b] => destruct (Z.eqb_spec a b); try lia
         end; reflexivity.
Qed.

Lemma to_digits_is_hex : forall radix, 2 <= radix <= 16 ->
  forall fuel n acc, 0 <= n ->
    forallb is_hex acc = true ->
    forallb is_hex (to_digits fuel radix n acc) = true.
Proof.
  intros radix Hr.
  induction fuel as [|fuel IH]; intros n acc Hn Hacc; simpl; [exact Hacc|].
  assert (Hd : forallb is_hex (digit_char (n mod radix) :: acc) = true).
  { simpl. rewrite Hacc, digit_char_is_hex; [reflexivity|].
    pose proof (Z.mod_pos_bound n radix). lia. }
  destruct (n <? radix); [exact Hd|].
  apply IH; [apply Z.div_pos; lia | exact Hd].
Qed.

Lemma to_digits_length_ge : forall fuel radix n acc,
  (List.length acc <= List.length (to_digits fuel radix n acc))%nat.
Proof.
  induction fuel as [|fuel IH]; intros radix n acc; simpl; [lia|].
  destruct (n <? radix); simpl; [lia|].
  specialize (IH radix (n / radix) (digit_char (n mod radix) :: acc)).
  simpl in IH. lia.
Qed.

(** A value below [radix^w] has at most [w] digits. *)
Lemma to_digits_length_le : forall radix, 2 <= radix ->
  forall fuel n w acc, 0 <= n < radix ^ Z.of_nat (S w) ->
    (List.length (to_digits fuel radix n acc) <= S w + List.length acc)%nat.
Proof.
  intros radix Hr.
  induction fuel as [|fuel IH]; intros n w acc Hn; simpl; [lia|].
  destruct (Z.ltb_spec n radix); simpl; [lia|].
  destruct w as [|w].
  - change (Z.of_nat 1) with 1 in Hn. rewrite Z.pow_1_r in Hn. lia.
  - rewrite (Nat2Z.inj_succ (S w)), Z.pow_succ_r in Hn by lia.
    specialize (IH (n / radix) w (digit_char (n mod radix) :: acc)).
    simpl in IH. simpl.
    assert (0 <= n / radix < radix ^ Z.of_nat (S w)).
    { split; [apply Z.div_pos; lia|].
      apply Z.div_lt_upper_bound; lia. }
    specialize (IH H0). lia.
Qed.

(** A value from [radix^w] on has more than [w] digits. *)
Lemma to_digits_length_gt : forall radix, 2 <= radix ->
  forall fuel n w acc, 0 <= n < 2 ^ Z.of_nat (S fuel) ->
    radix ^ Z.of_nat w <= n ->
    (w + List.length acc < List.length (to_digits (S fuel) radix n acc))%nat.
Proof.
  intros radix Hr.
  assert (Hsmall : forall n w, 0 <= n < radix -> radix ^ Z.of_nat w <= n ->
                     w = 0%nat).
  { intros n w Hn Hw. destruct w as [|w]; [reflexivity|].
    rewrite Nat2Z.inj_succ, Z.pow_succ_r in Hw by lia.
    assert (0 < radix ^ Z.of_nat w) by (apply Z.pow_pos_nonneg; lia). nia. }
  induction fuel as [|fuel IH]; intros n w acc Hn Hw.
  - change (2 ^ Z.of_nat 1) with 2 in Hn. simpl.
    destruct (Z.ltb_spec n radix); [|lia].
    rewrite (Hsmall n w) by lia. simpl. lia.
  - change (to_digits (S (S fuel)) radix n acc)
      with (let acc' := digit_char (n mod radix) :: acc in
            if n <? radix then acc'
            else to_digits (S fuel) radix (n / radix) acc').
    cbv zeta. destruct (Z.ltb_spec n radix).
    + rewrite (Hsmall n w) by lia. simpl. lia.
    + assert (Hq : 0 <= n / radix < 2 ^ Z.of_nat (S fuel)).
      { rewrite (Nat2Z.inj_succ (S fuel)), Z.pow_succ_r in Hn by lia.
        split; [apply Z.div_pos; lia|].
        apply Z.div_lt_upper_bound; [lia|].
        assert (0 < 2 ^ Z.of_nat (S fuel)) by (apply Z.pow_pos_nonneg; lia).
        nia. }
      destruct w as [|w].
      * pose proof (to_digits_length_ge (S fuel) radix (n / radix)
                      (digit_char (n mod radix) :: acc)) as Hge.
        simpl in Hge. simpl. lia.
      * specialize (IH (n / radix) w (digit_char (n mod radix) :: acc) Hq).
        cbn [List.length] in IH. cbn [plus].
        assert (Hw' : radix ^ Z.of_nat w <= n / radix).
        { apply Z.div_le_lower_bound; [lia|].
          rewrite Nat2Z.inj_succ, Z.pow_succ_r in Hw by lia. lia. }
        specialize (IH Hw'). lia.
Qed.

(* ================================================================= *)
(** ** parseInt on digit strings *)

Lemma hex_chars_plain : forall c tl,
  is_hex c = true -> forallb is_hex tl = true ->
  skip_spaces (c :: tl) = c :: tl
  /\ split_sign (c :: tl) = (1, c :: tl)
  /\ strip_0x (c :: tl) = None.
Proof.
  intros c tl Hc Htl. repeat split.
  - simpl. now rewrite (is_hex_not_space c Hc).
  - unfold split_sign. apply is_hex_range in Hc.
    destruct (Z.eqb_spec c 45); [lia|].
    destruct (Z.eqb_spec c 43); [lia|]. reflexivity.
  - unfold strip_0x. destruct tl as [|x tl]; [reflexivity|].
    simpl in Htl. apply andb_prop in Htl. destruct Htl as [Hx _].
    apply is_hex_range in Hx.
    destruct (Z.eqb_spec x 120); [lia|].
    destruct (Z.eqb_spec x 88); [lia|].
    now rewrite andb_false_r.
Qed.

Lemma parseInt_radix_hex : forall r s,
  2 <= r <= 36 -> s <> [] -> forallb is_hex s = true ->
  parseInt s (Some r)
  = match parse_digits r s None with Some v => Num v | None => NaN end.
Proof.
  intros r [|c tl] Hr Hne Hs; [congruence|].
  simpl in Hs. apply andb_prop in Hs. destruct Hs as [Hc Htl].
  destruct (hex_chars_plain c tl Hc Htl) as (H1 & H2 & H3).
  unfold parseInt. rewrite H1, H2.
  rewrite (ToInt32_small r) by (change (2 ^ 31) with 2147483648; lia).
  destruct (Z.eqb_spec r 0); [lia|].
  destruct (Z.ltb_spec r 2); [lia|].
  destruct (Z.ltb_spec 36 r); [lia|].
  cbn [negb orb andb]. rewrite H3.
  replace (if r =? 16 then None else None) with (@None js_string)
    by (destruct (r =? 16); reflexivity).
  destruct (parse_digits r (c :: tl) None) as [v|]; [|reflexivity].
  now rewrite Z.mul_1_l.
Qed.

Lemma parseInt_16_hex : forall s,
  s <> [] -> forallb is_hex s = true ->
  parseInt s (Some 16)
  = match parse_digits 16 s None with Some v => Num v | None => NaN end.
Proof. intros s. apply parseInt_radix_hex. lia. Qed.

Lemma parseInt_10_hex : forall s,
  s <> [] -> forallb is_hex s = true ->
  parseInt s None
  = match parse_digits 10 s None with Some v => Num v | None => NaN end.
Proof.
  intros [|c tl] Hne Hs; [congruence|].
  simpl in Hs. apply andb_prop in Hs. destruct Hs as [Hc Htl].
  destruct (hex_chars_plain c tl Hc Htl) as (H1 & H2 & H3).
  unfold parseInt. rewrite H1, H2.
  change (0 =? 0) with true. cbv beta iota. simpl orb. simpl andb.
  cbv beta iota. rewrite H3.
  destruct (parse_digits 10 (c :: tl) None) as [v|]; [|reflexivity].
  now rewrite Z.mul_1_l.
Qed.

Lemma to_digits_nonempty : forall fuel radix n,
  to_digits (S fuel) radix n [] <> [].
Proof.
  intros fuel radix n H.
  pose proof (to_digits_length_ge fuel radix (n / radix)
                [digit_char (n mod radix)]) as Hge.
  simpl in H. destruct (n <? radix); [discriminate|].
  rewrite H in Hge. simpl in Hge. lia.
Qed.

Lemma parse_digits_natural : forall radix n, 2 <= radix <= 16 -> 0 <= n ->
  parse_digits radix (to_digits (digits_fuel n) radix n []) None = Some n.
Proof.
  intros radix n Hr Hn.
  rewrite <- (app_nil_r (to_digits _ _ _ _)).
  unfold digits_fuel. rewrite parse_digits_to_digits; try lia; auto.
  split; [exact Hn | apply (digits_fuel_enough n Hn)].
Qed.

(** [parseInt(x)] gives an integer [x] back: its decimal string reads
    as itself. *)
Lemma parseInt_number_Num : forall z, parseInt_number (Num z) = Num z.
Proof.
  intros z. unfold parseInt_number, Number_toString, integer_toString.
  destruct (Z.ltb_spec z 0).
  - assert (Hd : forallb is_hex (to_digits (digits_fuel (- z)) 10 (- z) [])
                 = true) by (apply to_digits_is_hex; auto; lia).
    pose proof (to_digits_nonempty (Z.to_nat (Z.log2 (- z))) 10 (- z)) as Hne.
    fold (digits_fuel (- z)) in Hne.
    destruct (to_digits (digits_fuel (- z)) 10 (- z) []) as [|c tl] eqn:E;
      [congruence|].
    simpl in Hd. apply andb_prop in Hd. destruct Hd as [Hc Htl].
    destruct (hex_chars_plain c tl Hc Htl) as (_ & _ & H3).
    unfold parseInt. change (skip_spaces (45 :: c :: tl)) with (45 :: c :: tl).
    change (split_sign (45 :: c :: tl)) with (-1, c :: tl).
    change (0 =? 0) with true. cbv beta iota. simpl orb. simpl andb.
    cbv beta iota. rewrite H3. rewrite <- E.
    rewrite parse_digits_natural by lia. f_equal. lia.
  - rewrite parseInt_10_hex.
    + now rewrite parse_digits_natural by lia.
    + apply to_digits_nonempty.
    + apply to_digits_is_hex; auto; lia.
Qed.

Lemma init_int_value : forall z, parseInt_number (or_zero (Num z)) = Num z.
Proof.
  intros z. unfold or_zero. destruct (Z.eqb_spec z 0) as [-> | _];
    apply parseInt_number_Num.
Qed.

(* ================================================================= *)
(** ** The aligners *)

Lemma pad_loop_repeat : forall (c : char) i k str,
  pad_loop i (repeat c k) str = repeat c (k * Pos.to_nat i) ++ str.
Proof.
  intros c. induction i as [i IH | i IH |]; intros k str; simpl pad_loop.
  - rewrite <- repeat_app, IH, app_assoc, <- repeat_app.
    f_equal. f_equal. rewrite Pos2Nat.inj_xI. nia.
  - rewrite <- repeat_app, IH. f_equal. f_equal.
    rewrite Pos2Nat.inj_xO. nia.
  - f_equal. f_equal. rewrite Pos2Nat.inj_1. nia.
Qed.

(** The aligner only ever adds zeros in front. *)
Lemma aligner_eq : forall radix z len,
  _getIntAligner radix (Num z) len
  = repeat 48 (Z.to_nat (len - js_length (integer_toString radix z)))
      ++ integer_toString radix z.
Proof.
  intros radix z len. unfold _getIntAligner, Number_toString.
  destruct (len - js_length (integer_toString radix z)) as [|i|i] eqn:E;
    try reflexivity.
  change (lit "0") with (repeat (48 : char) 1).
  rewrite pad_loop_repeat. f_equal. f_equal. lia.
Qed.

Lemma parse_digits_zeros : forall radix, 2 <= radix ->
  forall k acc, acc = None \/ acc = Some 0 ->
    exists acc', (acc' = None \/ acc' = Some 0)
      /\ forall rest, parse_digits radix (repeat 48 k ++ rest) acc
                      = parse_digits radix rest acc'.
Proof.
  intros radix Hr. induction k as [|k IH]; intros acc Hacc.
  - exists acc. split; [exact Hacc | reflexivity].
  - destruct (IH (Some 0)) as (acc' & Hacc' & Hrest); [now right|].
    exists acc'. split; [exact Hacc'|]. intros rest. simpl.
    change (digit_value 48) with (Some 0).
    destruct (Z.ltb_spec 0 radix); [|lia].
    destruct Hacc as [-> | ->]; [apply Hrest|].
    rewrite Z.mul_0_l, Z.add_0_l. apply Hrest.
Qed.

Lemma forallb_repeat_hex : forall k, forallb is_hex (repeat 48 k) = true.
Proof. induction k as [|k IH]; simpl; [reflexivity | exact IH]. Qed.

(** A value within its width is rendered as exactly that many digits,
    which read back as the value. *)
Lemma aligner_in_width : forall radix w z,
  2 <= radix <= 16 -> 0 <= z < radix ^ Z.of_nat (S w) ->
  let s := _getIntAligner radix (Num z) (Z.of_nat (S w)) in
  List.length s = S w
  /\ forallb is_hex s = true
  /\ forall rest, parse_digits radix (s ++ rest) None
                  = parse_digits radix rest (Some z).
Proof.
  intros radix w z Hr Hz s. subst s. rewrite aligner_eq.
  unfold integer_toString. destruct (Z.ltb_spec z 0); [lia|].
  set (ds := to_digits (digits_fuel z) radix z []).
  assert (Hlen : (List.length ds <= S w)%nat).
  { pose proof (to_digits_length_le radix ltac:(lia) (digits_fuel z) z w []
                  Hz) as Hle. cbn [List.length] in Hle. subst ds. lia. }
  repeat split.
  - rewrite length_app, repeat_length.
    unfold js_length, js_string, char in *. lia.
  - rewrite forallb_app, forallb_repeat_hex. simpl.
    subst ds. apply to_digits_is_hex; auto; lia.
  - intros rest.
    destruct (parse_digits_zeros radix ltac:(lia)
                (Z.to_nat (Z.of_nat (S w) - js_length ds)) None)
      as (acc' & Hacc' & Hzeros); [now left|].
    rewrite <- app_assoc, Hzeros. subst ds. unfold digits_fuel.
    apply parse_digits_to_digits; try lia; auto.
    split; [lia | apply (digits_fuel_enough z); lia].
Qed.

(* ================================================================= *)
(** ** The random source *)

Lemma entropy_of_unit : forall l,
  Forall (fun q => (0 <= q)%Q /\ (q < 1)%Q) l ->
  in_unit_interval (entropy_of l).
Proof.
  intros l Hl n. unfold entropy_of.
  destruct (nth_in_or_default n l 0%Q) as [Hin | ->].
  - rewrite Forall_forall in Hl. now apply Hl.
  - split; [apply Qle_refl | reflexivity].
Qed.

Lemma in_unit_interval_tail : forall e,
  in_unit_interval e -> in_unit_interval (fun n => e (S n)).
Proof. intros e He n. apply He. Qed.

(** One draw scaled by [k] and truncated lies in [0, k). *)
Lemma random_below_range : forall k e,
  0 < k <= 2 ^ 30 -> in_unit_interval e ->
  exists v, random_below k e = (Num v, fun n => e (S n)) /\ 0 <= v < k.
Proof.
  intros k e Hk He. destruct (He 0%nat) as [H0 H1].
  unfold random_below, bind, Math_random, ret.
  destruct (e 0%nat) as [a b]. unfold Qle in H0. unfold Qlt in H1.
  simpl in H0, H1. unfold Qtruncate. simpl Qnum. simpl Qden.
  rewrite Pos.mul_1_r. rewrite Z.quot_div_nonneg by nia.
  assert (Hq : 0 <= a * k / Zpos b < k).
  { split; [apply Z.div_pos; nia|]. apply Z.div_lt_upper_bound; nia. }
  exists (a * k / Zpos b). split; [|exact Hq].
  change (ToInt32 0) with 0. rewrite Z.lor_0_l.
  rewrite ToInt32_small; [reflexivity|].
  change (2 ^ 30) with 1073741824 in Hk.
  change (2 ^ 31) with 2147483648. lia.
Qed.

(** Within [0, 53] the result is an unsigned integer of that many bits. *)
Lemma getRandomInt_range : forall x e,
  0 <= x <= 53 -> in_unit_interval e ->
  exists v e', _getRandomInt x e = (Num v, e')
    /\ 0 <= v < 2 ^ x /\ in_unit_interval e'.
Proof.
  intros x e Hx He. unfold _getRandomInt.
  destruct (Z.ltb_spec x 0); [lia|].
  destruct (Z.leb_spec x 30).
  - assert (Hp : 0 < 2 ^ x <= 2 ^ 30).
    { split; [apply Z.pow_pos_nonneg; lia | apply Z.pow_le_mono_r; lia]. }
    rewrite shl32_1 by lia.
    destruct (random_below_range (2 ^ x) e Hp He) as (v & Hv & Hr).
    exists v, (fun n => e (S n)). auto using in_unit_interval_tail.
  - destruct (Z.leb_spec x 53); [|lia].
    rewrite !shl32_1 by lia.
    assert (Hp : 0 < 2 ^ (x - 30) <= 2 ^ 30).
    { split; [apply Z.pow_pos_nonneg; lia | apply Z.pow_le_mono_r; lia]. }
    destruct (random_below_range (2 ^ 30) e) as (a & Ha & Hra);
      [change (2 ^ 30) with 1073741824; lia | exact He |].
    pose proof (in_unit_interval_tail e He) as He1.
    destruct (random_below_range (2 ^ (x - 30)) _ Hp He1) as (b & Hb & Hrb).
    unfold bind. rewrite Ha, Hb. unfold ret, js_add, js_mul.
    eexists _, _. split; [reflexivity|].
    split; [|exact (in_unit_interval_tail _ He1)].
    replace (2 ^ x) with (2 ^ (x - 30) * 2 ^ 30)
      by (rewrite <- Z.pow_add_r by lia; f_equal; lia).
    change (2 ^ 30) with 1073741824 in *. nia.
Qed.

Lemma getRandomInt_NaN : forall x e,
  x < 0 \/ 53 < x -> _getRandomInt x e = (NaN, e).
Proof.
  intros x e Hx. unfold _getRandomInt.
  destruct (Z.ltb_spec x 0); [reflexivity|].
  destruct (Z.leb_spec x 30); [lia|].
  destruct (Z.leb_spec x 53); [lia|]. reflexivity.
Qed.

Lemma random_below_exact : forall k v l,
  0 < k <= 2 ^ 30 -> 0 <= v < k ->
  random_below k (entropy_of (Qmake v (Z.to_pos k) :: l))
  = (Num v, entropy_of l).
Proof.
  intros k v l Hk Hv. unfold random_below, bind, Math_random, ret.
  change (entropy_of (Qmake v (Z.to_pos k) :: l) 0%nat)
    with (Qmake v (Z.to_pos k)).
  change (fun n : nat => entropy_of (Qmake v (Z.to_pos k) :: l) (S n))
    with (entropy_of l).
  f_equal. f_equal. unfold Qtruncate. simpl Qnum. simpl Qden.
  rewrite Pos.mul_1_r, Z2Pos.id by lia.
  rewrite Z.quot_mul by lia.
  change (ToInt32 0) with 0. rewrite Z.lor_0_l.
  apply ToInt32_small. change (2 ^ 30) with 1073741824 in Hk.
  change (2 ^ 31) with 2147483648. lia.
Qed.

Lemma unit_fraction : forall k v, 0 < k -> 0 <= v < k ->
  (0 <= Qmake v (Z.to_pos k))%Q /\ (Qmake v (Z.to_pos k) < 1)%Q.
Proof.
  intros k v Hk Hv. unfold Qle, Qlt. simpl. rewrite Z2Pos.id by lia. lia.
Qed.

Lemma draws_for_unit : forall x v,
  0 <= x <= 53 -> 0 <= v < 2 ^ x ->
  Forall (fun q => (0 <= q)%Q /\ (q < 1)%Q) (draws_for x v).
Proof.
  intros x v Hx Hv. unfold draws_for.
  assert (H30 : 0 < 2 ^ 30) by reflexivity.
  destruct (Z.leb_spec x 30).
  - repeat constructor; apply unit_fraction; lia.
  - assert (Hp : 0 < 2 ^ (x - 30)) by (apply Z.pow_pos_nonneg; lia).
    assert (Hsplit : 2 ^ x = 2 ^ (x - 30) * 2 ^ 30)
      by (rewrite <- Z.pow_add_r by lia; f_equal; lia).
    assert (Ha : 0 <= v mod 2 ^ 30 < 2 ^ 30) by (apply Z.mod_pos_bound; lia).
    assert (Hb : 0 <= v / 2 ^ 30 < 2 ^ (x - 30)).
    { split; [apply Z.div_pos; lia|].
      apply Z.div_lt_upper_bound; [lia|]. rewrite Z.mul_comm. lia. }
    repeat constructor; apply unit_fraction; assumption.
Qed.

Lemma getRandomInt_exact : forall x v l,
  0 <= x <= 53 -> 0 <= v < 2 ^ x ->
  _getRandomInt x (entropy_of (draws_for x v ++ l)) = (Num v, entropy_of l).
Proof.
  intros x v l Hx Hv. unfold _getRandomInt, draws_for.
  destruct (Z.ltb_spec x 0); [lia|].
  destruct (Z.leb_spec x 30).
  - assert (Hp : 0 < 2 ^ x <= 2 ^ 30).
    { split; [apply Z.pow_pos_nonneg; lia | apply Z.pow_le_mono_r; lia]. }
    rewrite shl32_1 by lia. cbn [app]. now apply random_below_exact.
  - destruct (Z.leb_spec x 53); [|lia].
    assert (Hp : 0 < 2 ^ (x - 30) <= 2 ^ 30).
    { split; [apply Z.pow_pos_nonneg; lia | apply Z.pow_le_mono_r; lia]. }
    assert (Hsplit : 2 ^ x = 2 ^ (x - 30) * 2 ^ 30)
      by (rewrite <- Z.pow_add_r by lia; f_equal; lia).
    assert (H30 : 0 < 2 ^ 30) by reflexivity.
    assert (Ha : 0 <= v mod 2 ^ 30 < 2 ^ 30) by (apply Z.mod_pos_bound; lia).
    assert (Hb : 0 <= v / 2 ^ 30 < 2 ^ (x - 30)).
    { split; [apply Z.div_pos; lia|].
      apply Z.div_lt_upper_bound; [lia|]. rewrite Z.mul_comm. lia. }
    rewrite !shl32_1 by lia. unfold bind. cbn [app].
    rewrite (random_below_exact (2 ^ 30) (v mod 2 ^ 30) _
               (conj H30 (Z.le_refl _)) Ha).
    rewrite (random_below_exact _ _ _ Hp Hb).
    unfold ret, js_add, js_mul. f_equal. f_equal.
    rewrite Z.add_comm, Z.mul_comm. symmetry. apply Z.div_mod. lia.
Qed.

(** C7.  A width outside [0, 53] makes [_getRandomInt] return NaN, the
    outcome by which the source reports the bad argument and which no
    unsigned integer result can be taken for; a width within [0, 53]
    gives an unsigned integer below 2^width, whatever the random source
    draws. *)
Theorem getRandomInt_contract : forall x e,
  in_unit_interval e ->
  (x < 0 \/ 53 < x -> fst (_getRandomInt x e) = NaN)
  /\ (0 <= x <= 53 ->
      exists v, fst (_getRandomInt x e) = Num v /\ 0 <= v < 2 ^ x).
Proof.
  intros x e He. split.
  - intros Hx. now rewrite getRandomInt_NaN.
  - intros Hx. destruct (getRandomInt_range x e Hx He) as (v & e' & Hv & Hr & _).
    exists v. now rewrite Hv.
Qed.

Lemma getRandomInt_contract_witness :
  fst (_getRandomInt 54 (entropy_of [1 # 2]%Q)) = NaN
  /\ exists v, fst (_getRandomInt 4 (entropy_of [1 # 2]%Q)) = Num v
               /\ 0 <= v < 2 ^ 4.
Proof.
  assert (He : in_unit_interval (entropy_of [1 # 2]%Q)).
  { apply entropy_of_unit. repeat constructor; discriminate. }
  split.
  - apply (proj1 (getRandomInt_contract 54 _ He)). lia.
  - apply (proj2 (getRandomInt_contract 4 _ He)). lia.
Defined.



(* ================================================================= *)
(** ** equals *)

Lemma init_intFields : forall a b c d e f,
  intFields (_init (Num a) (Num b) (Num c) (Num d) (Num e) (Num f))
  = [Num a; Num b; Num c; Num d; Num e; Num f].
Proof.
  intros. unfold _init. cbn [intFields map].
  now rewrite !init_int_value.
Qed.

Lemma init_six_integers : forall a b c d e f,
  six_integers (_init (Num a) (Num b) (Num c) (Num d) (Num e) (Num f)).
Proof. intros. repeat eexists. apply init_intFields. Qed.

Lemma js_neq_Num : forall a b, js_neq (Num a) (Num b) = negb (a =? b).
Proof. reflexivity. Qed.

(** On identifiers of six integers, [equals] decides equality of the
    field arrays. *)
Lemma equals_true_iff : forall u v,
  six_integers u -> six_integers v ->
  (equals u (JsUUID v) = true <-> intFields u = intFields v).
Proof.
  intros u v (a & b & c & d & e & f & Hu) (a' & b' & c' & d' & e' & f' & Hv).
  unfold equals. rewrite Hu, Hv. cbn [seq forallb nth_error strict_neq].
  rewrite !js_neq_Num, !negb_involutive, !andb_true_r, !andb_true_iff,
    !Z.eqb_eq.
  split.
  - intros (-> & -> & -> & -> & -> & ->). reflexivity.
  - intros H. injection H as -> -> -> -> -> ->. repeat split.
Qed.

(** C10.  [equals] answers false, without failing, to whatever is not a
    UUID instance ([null] and [undefined] among them); to a UUID
    instance it answers true exactly when the six integer fields of
    the two identifiers are equal. *)
Theorem equals_spec : forall (u : UUID) (x : js_value),
  (instanceof_UUID x = false -> equals u x = false)
  /\ (forall v, x = JsUUID v -> six_integers u -> six_integers v ->
        (equals u x = true <-> intFields u = intFields v)).
Proof.
  intros u x. split.
  - destruct x; simpl; try reflexivity. discriminate.
  - intros v -> Hu Hv. now apply equals_true_iff.
Qed.

Lemma equals_spec_witness :
  equals nil_uuid JsNull = false
  /\ (equals nil_uuid (JsUUID nil_uuid) = true
      <-> intFields nil_uuid = intFields nil_uuid).
Proof.
  split.
  - apply (proj1 (equals_spec nil_uuid JsNull)). reflexivity.
  - apply (proj2 (equals_spec nil_uuid (JsUUID nil_uuid)) nil_uuid eq_refl);
      apply init_six_integers.
Defined.

(* ================================================================= *)
(** ** The state after construction and reset *)

Lemma lor_1 : forall a, 0 <= a ->
  Z.lor a 1 = if Z.odd a then a else a + 1.
Proof.
  intros [|p|p] Ha; try lia; [reflexivity|].
  destruct p; reflexivity.
Qed.

Lemma new_UUIDState_spec : forall e, in_unit_interval e ->
  exists s n t e',
    new_UUIDState e = (mkState (Num 0) (Num s) (Num n) (Num t), e')
    /\ 0 <= s < 2 ^ 14
    /\ 2 ^ 40 <= n < 2 ^ 48 /\ Z.testbit n 40 = true
    /\ 0 <= t < 16
    /\ in_unit_interval e'.
Proof.
  intros e He. unfold new_UUIDState, bind.
  destruct (getRandomInt_range 14 e ltac:(lia) He) as (s & e1 & -> & Hs & He1).
  destruct (getRandomInt_range 8 e1 ltac:(lia) He1)
    as (n8 & e2 & -> & Hn8 & He2).
  destruct (getRandomInt_range 40 e2 ltac:(lia) He2)
    as (n40 & e3 & -> & Hn40 & He3).
  destruct (getRandomInt_range 4 e3 ltac:(lia) He3)
    as (t & e4 & -> & Ht & He4).
  unfold ret, js_or, js_mul, js_add, int32_of.
  change (2 ^ 8) with 256 in Hn8. change (2 ^ 40) with 1099511627776 in *.
  change (2 ^ 4) with 16 in Ht.
  rewrite (ToInt32_small n8) by (change (2 ^ 31) with 2147483648; lia).
  change (ToInt32 1) with 1.
  pose proof (lor_1 n8 ltac:(lia)) as Hlor.
  assert (Hodd : Z.odd (Z.lor n8 1) = true).
  { rewrite Hlor. destruct (Z.odd n8) eqn:E; [exact E|].
    rewrite Z.add_1_r, Z.odd_succ. now rewrite <- Z.negb_odd, E. }
  assert (Hb : 1 <= Z.lor n8 1 <= 255).
  { rewrite Hlor. destruct (Z.odd n8) eqn:E.
    - apply Z.odd_spec in E. destruct E as [m ->]. lia.
    - assert (Ev : Z.even n8 = true) by (now rewrite <- Z.negb_odd, E).
      apply Z.even_spec in Ev. destruct Ev as [m ->]. lia. }
  eexists s, _, t, e4. split; [reflexivity|].
  change (2 ^ 48) with 281474976710656.
  split; [exact Hs|]. split; [lia|]. split; [|split; [lia | exact He4]].
  rewrite <- (Z.shiftr_spec _ 40 0) by lia.
  rewrite Z.shiftr_div_pow2 by lia. change (2 ^ 40) with 1099511627776.
  rewrite Z.div_add_l by lia. rewrite (Z.div_small n40) by lia.
  rewrite Z.add_0_r, Z.bit0_odd. exact Hodd.
Qed.

Lemma node_value : forall n8 n40,
  0 <= n8 < 2 ^ 8 -> 0 <= n40 < 2 ^ 40 ->
  js_add (js_mul (js_or (Num n8) (Num 1)) (Num 0x10000000000)) (Num n40)
  = Num (Z.lor n8 1 * 2 ^ 40 + n40)
  /\ 2 ^ 40 <= Z.lor n8 1 * 2 ^ 40 + n40 < 2 ^ 48
  /\ Z.testbit (Z.lor n8 1 * 2 ^ 40 + n40) 40 = true.
Proof.
  intros n8 n40 Hn8 Hn40.
  unfold js_or, js_mul, js_add, int32_of.
  change (2 ^ 8) with 256 in Hn8. change (2 ^ 40) with 1099511627776 in *.
  rewrite (ToInt32_small n8) by (change (2 ^ 31) with 2147483648; lia).
  change (ToInt32 1) with 1.
  pose proof (lor_1 n8 ltac:(lia)) as Hlor.
  assert (Hodd : Z.odd (Z.lor n8 1) = true).
  { rewrite Hlor. destruct (Z.odd n8) eqn:E; [exact E|].
    rewrite Z.add_1_r, Z.odd_succ. now rewrite <- Z.negb_odd, E. }
  assert (Hb : 1 <= Z.lor n8 1 <= 255).
  { rewrite Hlor. destruct (Z.odd n8) eqn:E.
    - apply Z.odd_spec in E. destruct E as [m ->]. lia.
    - assert (Ev : Z.even n8 = true) by (now rewrite <- Z.negb_odd, E).
      apply Z.even_spec in Ev. destruct Ev as [m ->]. lia. }
  split; [reflexivity|]. change (2 ^ 48) with 281474976710656.
  split; [lia|].
  rewrite <- (Z.shiftr_spec _ 40 0) by lia.
  rewrite Z.shiftr_div_pow2 by lia. change (2 ^ 40) with 1099511627776.
  rewrite Z.div_add_l by lia. rewrite (Z.div_small n40) by lia.
  rewrite Z.add_0_r, Z.bit0_odd. exact Hodd.
Qed.

Lemma state_draws_unit : forall s n8 n40 t,
  0 <= s < 2 ^ 14 -> 0 <= n8 < 2 ^ 8 -> 0 <= n40 < 2 ^ 40 -> 0 <= t < 2 ^ 4 ->
  in_unit_interval (entropy_of (state_draws s n8 n40 t)).
Proof.
  intros s n8 n40 t Hs Hn8 Hn40 Ht. apply entropy_of_unit.
  unfold state_draws. rewrite !Forall_app.
  repeat split; apply draws_for_unit; (lia || assumption).
Qed.

Lemma new_UUIDState_exact : forall s n8 n40 t,
  0 <= s < 2 ^ 14 -> 0 <= n8 < 2 ^ 8 -> 0 <= n40 < 2 ^ 40 -> 0 <= t < 2 ^ 4 ->
  fst (new_UUIDState (entropy_of (state_draws s n8 n40 t)))
  = mkState (Num 0) (Num s) (Num (Z.lor n8 1 * 2 ^ 40 + n40)) (Num t).
Proof.
  intros s n8 n40 t Hs Hn8 Hn40 Ht.
  unfold new_UUIDState, bind, state_draws.
  rewrite (getRandomInt_exact 14 s) by (lia || assumption).
  rewrite (getRandomInt_exact 8 n8) by (lia || assumption).
  rewrite (getRandomInt_exact 40 n40) by (lia || assumption).
  rewrite <- (app_nil_r (draws_for 4 t)).
  rewrite (getRandomInt_exact 4 t) by (lia || assumption).
  unfold ret. cbn [fst].
  destruct (node_value n8 n40 Hn8 Hn40) as [-> _]. reflexivity.
Qed.

(** C9 as the code has it.  A reset drops the old state and builds a new
    one from four draws of [_getRandomInt], taken in this order: 14 bits
    for [sequence], 8 bits and 40 bits for [node], 4 bits for [tick].
    [timestamp] is 0; [sequence] is the first draw; [node] is the second
    draw with its lowest bit set, times 2^40, plus the third, so that its
    multicast bit, bit 40, is set; [tick] is the fourth draw, a value in
    [0, 16), not zeroed.  The draws are the only source of the new
    state: for every sequence below 2^14, node bytes and tick below 16
    there are draws after which a reset gives exactly them. *)
Theorem resetState_fresh : forall st e,
  in_unit_interval e ->
  fst (resetState st e) = fst (new_UUIDState e)
  /\ (exists s n8 n40 t e1 e2 e3 e4,
        _getRandomInt 14 e = (Num s, e1)
        /\ _getRandomInt 8 e1 = (Num n8, e2)
        /\ _getRandomInt 40 e2 = (Num n40, e3)
        /\ _getRandomInt 4 e3 = (Num t, e4)
        /\ resetState st e
           = (mkState (Num 0) (Num s) (Num (Z.lor n8 1 * 2 ^ 40 + n40)) (Num t),
              e4)
        /\ 0 <= s < 2 ^ 14
        /\ 0 <= Z.lor n8 1 * 2 ^ 40 + n40 < 2 ^ 48
        /\ Z.testbit (Z.lor n8 1 * 2 ^ 40 + n40) 40 = true
        /\ 0 <= t < 16)
  /\ (forall s n8 n40 t,
        0 <= s < 2 ^ 14 -> 0 <= n8 < 2 ^ 8 -> 0 <= n40 < 2 ^ 40 ->
        0 <= t < 16 ->
        exists e', in_unit_interval e'
          /\ fst (resetState st e')
             = mkState (Num 0) (Num s) (Num (Z.lor n8 1 * 2 ^ 40 + n40))
                       (Num t)).
Proof.
  intros st e He. split; [reflexivity|]. split.
  - destruct (getRandomInt_range 14 e ltac:(lia) He) as (s & e1 & H1 & Hs & He1).
    destruct (getRandomInt_range 8 e1 ltac:(lia) He1)
      as (n8 & e2 & H2 & Hn8 & He2).
    destruct (getRandomInt_range 40 e2 ltac:(lia) He2)
      as (n40 & e3 & H3 & Hn40 & He3).
    destruct (getRandomInt_range 4 e3 ltac:(lia) He3)
      as (t & e4 & H4 & Ht & He4).
    destruct (node_value n8 n40 Hn8 Hn40) as (Hn & Hr & Hb).
    exists s, n8, n40, t, e1, e2, e3, e4.
    repeat (split; [assumption|]).
    split.
    { unfold resetState, new_UUIDState, bind. rewrite H1, H2, H3, H4.
      unfold ret. now rewrite Hn. }
    split; [exact Hs|]. split; [lia|]. split; [exact Hb|].
    change (2 ^ 4) with 16 in Ht. exact Ht.
  - intros s n8 n40 t Hs Hn8 Hn40 Ht.
    exists (entropy_of (state_draws s n8 n40 t)). split.
    + apply state_draws_unit; assumption.
    + unfold resetState. apply new_UUIDState_exact; assumption.
Qed.

Lemma halves_unit : in_unit_interval halves.
Proof. apply entropy_of_unit. repeat constructor; discriminate. Qed.

Lemma resetState_fresh_witness :
  in_unit_interval halves
  /\ (exists s n8 n40 t e1 e2 e3 e4,
        _getRandomInt 14 halves = (Num s, e1)
        /\ _getRandomInt 8 e1 = (Num n8, e2)
        /\ _getRandomInt 40 e2 = (Num n40, e3)
        /\ _getRandomInt 4 e3 = (Num t, e4)
        /\ resetState used_state halves
           = (mkState (Num 0) (Num s) (Num (Z.lor n8 1 * 2 ^ 40 + n40)) (Num t),
              e4)
        /\ 0 <= s < 2 ^ 14
        /\ 0 <= Z.lor n8 1 * 2 ^ 40 + n40 < 2 ^ 48
        /\ Z.testbit (Z.lor n8 1 * 2 ^ 40 + n40) 40 = true
        /\ 0 <= t < 16)
  /\ (exists e', in_unit_interval e'
        /\ fst (resetState used_state e')
           = mkState (Num 0) (Num 16383) (Num (Z.lor 254 1 * 2 ^ 40 + 5))
                     (Num 15)).
Proof.
  split; [exact halves_unit|]. split.
  - apply (resetState_fresh used_state halves halves_unit).
  - apply (resetState_fresh used_state halves halves_unit);
      split; (lia || reflexivity).
Defined.

(** C9 as stated fails: after this reset [tick] is 8. *)
Lemma resetState_tick_not_zeroed :
  in_unit_interval halves
  /\ tick (fst (resetState used_state halves)) = Num 8
  /\ ~ (timestamp (fst (resetState used_state halves)) = Num 0
        /\ tick (fst (resetState used_state halves)) = Num 0).
Proof.
  split; [exact halves_unit|]. split; [reflexivity|].
  intros [_ H]. vm_compute in H. discriminate H.
Qed.

(* ================================================================= *)
(** ** genV1 *)

Lemma mask14 : forall x, js_and (Num x) (Num 0x3FFF) = Num (x mod 2 ^ 14).
Proof.
  intros x. unfold js_and, int32_of.
  change (ToInt32 0x3FFF) with (Z.ones 14).
  now rewrite land_ToInt32_ones by lia.
Qed.

(** The identifier returned is read off the state left behind. *)
Lemma genV1_uuid : forall now st e,
  fst (fst (genV1 now st e)) = uuid_of_state (snd (fst (genV1 now st e))).
Proof.
  intros now st e. unfold genV1, bind.
  match goal with
  | |- context [let (a, e') := ?m in _] => destruct m as [st1 e1]
  end.
  reflexivity.
Qed.

(** One step of the state machine, by cases on the clock. *)
Lemma genV1_step : forall now ts s n t e,
  in_unit_interval e -> 0 <= s < 2 ^ 14 -> 0 <= t ->
  exists s' t',
    snd (fst (genV1 now (mkState (Num ts) (Num s) (Num n) (Num t)) e))
    = mkState (Num now) (Num s') (Num n) (Num t')
    /\ in_unit_interval (snd (genV1 now (mkState (Num ts) (Num s) (Num n) (Num t)) e))
    /\ ((now <> ts /\ 0 <= t' < 16
         /\ s' = (if now <? ts then s + 1 else s) mod 2 ^ 14)
        \/ (now = ts /\ t < 9984 /\ t < t' <= t + 16 /\ s' = s)
        \/ (now = ts /\ t' = t /\ s' = (s + 1) mod 2 ^ 14)).
Proof.
  intros now ts s n t e He Hs Ht. unfold genV1, bind.
  cbn [timestamp sequence node tick].
  rewrite js_neq_Num. unfold js_lt.
  destruct (Z.eqb_spec now ts) as [-> | Hne]; cbn [negb].
  - unfold Math_random.
    destruct (Qlt_bool (e 0%nat) _tsRatio && (t <? 9984)) eqn:Hc.
    + apply andb_prop in Hc. destruct Hc as [_ Hc]. apply Z.ltb_lt in Hc.
      destruct (getRandomInt_range 4 _ ltac:(lia) (in_unit_interval_tail e He))
        as (d & e' & -> & Hd & He').
      change (2 ^ 4) with 16 in Hd.
      unfold ret, set_tick, set_sequence, js_add.
      cbn [timestamp sequence node tick fst snd]. rewrite mask14.
      rewrite Z.mod_small by lia.
      exists s, (t + (1 + d)). split; [reflexivity|]. split; [exact He'|].
      right. left. lia.
    + unfold ret, set_sequence, js_incr, js_add.
      cbn [timestamp sequence node tick fst snd]. rewrite mask14.
      exists ((s + 1) mod 2 ^ 14), t. split; [reflexivity|].
      split; [now apply in_unit_interval_tail|]. right. right. auto.
  - destruct (getRandomInt_range 4 e ltac:(lia) He) as (d & e' & Hd & Hr & He').
    change (2 ^ 4) with 16 in Hr.
    destruct (now <? ts); rewrite Hd;
      unfold ret, set_tick, set_timestamp, set_sequence, js_incr, js_add;
      cbn [timestamp sequence node tick fst snd]; rewrite mask14;
      eexists _, d; (split; [reflexivity|]); (split; [exact He'|]);
      left; auto.
Qed.

Lemma reachable_ok : forall st, reachable st -> state_ok st.
Proof.
  assert (Hnew : forall e, in_unit_interval e ->
                   state_ok (fst (new_UUIDState e))).
  { intros e He.
    destruct (new_UUIDState_spec e He)
      as (s & n & t & e' & -> & Hs & Hn & Hb & Ht & _).
    exists 0, s, n, t. change (2 ^ 40) with 1099511627776 in Hn.
    repeat split; try assumption; lia. }
  induction 1 as [e He | st now e Hst IH He | st e Hst IH He].
  - now apply Hnew.
  - destruct IH as (ts & s & n & t & -> & Hs & Hn & Hb & Ht).
    destruct (genV1_step now ts s n t e He Hs ltac:(lia))
      as (s' & t' & -> & _ & Hcases).
    exists now, s', n, t'.
    assert (Hs' : 0 <= s' < 2 ^ 14).
    { destruct Hcases as [(_ & _ & ->) | [(_ & _ & _ & ->) | (_ & _ & ->)]];
        try (apply Z.mod_pos_bound; reflexivity). exact Hs. }
    assert (Ht' : 0 <= t' < 10000).
    { destruct Hcases as [(_ & H & _) | [(_ & H1 & H2 & _) | (_ & -> & _)]];
        lia. }
    repeat split; try assumption; lia.
  - now apply Hnew.
Qed.

Lemma lor_128 : forall a, 0 <= a < 128 -> Z.lor a 128 = a + 128.
Proof.
  intros a Ha.
  assert (H : forallb (fun a => Z.lor a 128 =? a + 128)
                (map Z.of_nat (seq 0 128)) = true) by (vm_compute; reflexivity).
  rewrite forallb_forall in H. apply Z.eqb_eq, H, in_map_iff.
  exists (Z.to_nat a). split; [lia | apply in_seq; lia].
Qed.

(** The six fields of the identifier built from a state: the time
    fields depend on the timestamp alone. *)
Lemma uuid_of_state_fields : forall ts,
  exists l m h, forall s n t, 0 <= s < 2 ^ 14 ->
    intFields (uuid_of_state (mkState (Num ts) (Num s) (Num n) (Num t)))
    = [Num (l + t); Num m; Num h;
       Num (s / 256 + 128); Num (s mod 256); Num n].
Proof.
  intros ts. eexists _, _, _. intros s n t Hs.
  change (2 ^ 14) with 16384 in Hs.
  unfold uuid_of_state, _getTimeFieldValues.
  cbn [timestamp sequence node tick low mid hi].
  unfold js_sub, js_rem, js_mul. change (0x100000000 =? 0) with false.
  cbv iota. unfold js_add at 1.
  assert (Hsh : js_or (js_ushr (Num s) (Num 8)) (Num 0x80)
                = Num (s / 256 + 128)).
  { unfold js_or, js_ushr, int32_of, uint32_of.
    change (ToUint32 8 mod 32) with 8. change (ToInt32 0x80) with 128.
    rewrite ToUint32_small by (change (2 ^ 32) with 4294967296; lia).
    rewrite Z.shiftr_div_pow2 by lia. change (2 ^ 8) with 256.
    assert (0 <= s / 256 < 64).
    { split; [apply Z.div_pos; lia | apply Z.div_lt_upper_bound; lia]. }
    rewrite ToInt32_small by (change (2 ^ 31) with 2147483648; lia).
    now rewrite lor_128 by lia. }
  assert (Hlo : js_and (Num s) (Num 0xFF) = Num (s mod 256)).
  { unfold js_and, int32_of. change (ToInt32 0xFF) with (Z.ones 8).
    now rewrite land_ToInt32_ones by lia. }
  rewrite Hsh, Hlo. unfold js_and at 1, js_or at 1, js_and at 1.
  apply init_intFields.
Qed.

Lemma uuid_of_state_six : forall ts s n t, 0 <= s < 2 ^ 14 ->
  six_integers (uuid_of_state (mkState (Num ts) (Num s) (Num n) (Num t))).
Proof.
  intros ts s n t Hs. destruct (uuid_of_state_fields ts) as (l & m & h & Hf).
  repeat eexists. now apply Hf.
Qed.

(** C1.  From a reachable state, two calls of [genV1] that read the
    same clock value (the one the first call stored) never return
    identifiers equal on all six fields: [timeLow] differs when the
    tick advanced, and [clockSeqHiAndReserved] or [clockSeqLow]
    differs when the sequence was incremented. *)
Theorem genV1_same_clock_distinct : forall st now e,
  reachable st -> in_unit_interval e ->
  let r1 := genV1 now st e in
  let r2 := genV1 now (snd (fst r1)) (snd r1) in
  let u1 := fst (fst r1) in
  let u2 := fst (fst r2) in
  timestamp (snd (fst r1)) = Num now
  /\ equals u1 (JsUUID u2) = false
  /\ (intField u1 "timeLow" <> intField u2 "timeLow"
      \/ intField u1 "clockSeqHiAndReserved"
         <> intField u2 "clockSeqHiAndReserved"
      \/ intField u1 "clockSeqLow" <> intField u2 "clockSeqLow").
Proof.
  intros st now e Hst He r1 r2 u1 u2. subst u1 u2 r2 r1.
  unfold intField.
  change (index_of "timeLow" FIELD_NAMES 0) with (Some 0%nat).
  change (index_of "clockSeqHiAndReserved" FIELD_NAMES 0) with (Some 3%nat).
  change (index_of "clockSeqLow" FIELD_NAMES 0) with (Some 4%nat).
  cbv iota beta.
  destruct (reachable_ok st Hst) as (ts & s & n & t & -> & Hs & _ & _ & Ht).
  rewrite !genV1_uuid.
  destruct (genV1_step now ts s n t e He Hs ltac:(lia))
    as (s1 & t1 & -> & He1 & Hc1).
  assert (Hs1 : 0 <= s1 < 2 ^ 14).
  { destruct Hc1 as [(_ & _ & ->) | [(_ & _ & _ & ->) | (_ & _ & ->)]];
      try (apply Z.mod_pos_bound; reflexivity). exact Hs. }
  assert (Ht1 : 0 <= t1) by
    (destruct Hc1 as [(_ & H & _) | [(_ & _ & H & _) | (_ & -> & _)]]; lia).
  destruct (genV1_step now now s1 n t1 _ He1 Hs1 Ht1)
    as (s2 & t2 & -> & _ & Hc2).
  assert (Hs2 : 0 <= s2 < 2 ^ 14).
  { destruct Hc2 as [(_ & _ & ->) | [(_ & _ & _ & ->) | (_ & _ & ->)]];
      try (apply Z.mod_pos_bound; reflexivity). exact Hs1. }
  destruct (uuid_of_state_fields now) as (l & m & h & Hf).
  assert (Hdiff : nth_error [Num (l + t1); Num m; Num h; Num (s1 / 256 + 128);
                             Num (s1 mod 256); Num n] 0
                  <> nth_error [Num (l + t2); Num m; Num h;
                                Num (s2 / 256 + 128); Num (s2 mod 256);
                                Num n] 0
                  \/ nth_error [Num (l + t1); Num m; Num h;
                                Num (s1 / 256 + 128); Num (s1 mod 256);
                                Num n] 3
                     <> nth_error [Num (l + t2); Num m; Num h;
                                   Num (s2 / 256 + 128); Num (s2 mod 256);
                                   Num n] 3
                  \/ nth_error [Num (l + t1); Num m; Num h;
                                Num (s1 / 256 + 128); Num (s1 mod 256);
                                Num n] 4
                     <> nth_error [Num (l + t2); Num m; Num h;
                                   Num (s2 / 256 + 128); Num (s2 mod 256);
                                   Num n] 4).
  { cbn [nth_error].
    destruct Hc2 as [(Hne & _) | [(_ & _ & Hlt & _) | (_ & _ & ->)]].
    - congruence.
    - left. intros H. injection H. lia.
    - change (2 ^ 14) with 16384 in *.
      destruct (Z.eq_dec (s1 mod 256) (((s1 + 1) mod 16384) mod 256))
        as [Hm | Hm]; [|right; right; congruence].
      right. left. intros H. injection H as H.
      revert Hm H. Z.div_mod_to_equations. lia. }
  rewrite (Hf s1 n t1 Hs1), (Hf s2 n t2 Hs2).
  split; [reflexivity|]. split; [|exact Hdiff].
  destruct (equals _ _) eqn:E; [|reflexivity].
  apply equals_true_iff in E; try now apply uuid_of_state_six.
  rewrite (Hf s1 n t1 Hs1), (Hf s2 n t2 Hs2) in E.
  rewrite E in Hdiff. destruct Hdiff as [H | [H | H]]; now elim H.
Qed.

Lemma genV1_same_clock_distinct_witness :
  equals
    (fst (fst (genV1 1000 (fst (new_UUIDState halves)) halves)))
    (JsUUID
       (fst (fst (genV1 1000
                    (snd (fst (genV1 1000 (fst (new_UUIDState halves)) halves)))
                    (snd (genV1 1000 (fst (new_UUIDState halves)) halves))))))
  = false.
Proof.
  apply (genV1_same_clock_distinct (fst (new_UUIDState halves)) 1000 halves
           (reachable_new halves halves_unit) halves_unit).
Defined.

(** C3 as the code has it.  When the clock reads less than the stored
    timestamp, the call adds one to [sequence] modulo 2^14: the
    sequence grows by one, except that 0x3FFF is followed by 0. *)
Theorem genV1_clock_backward : forall st now e,
  reachable st -> in_unit_interval e ->
  js_lt (Num now) (timestamp st) = true ->
  exists s,
    sequence st = Num s
    /\ sequence (snd (fst (genV1 now st e))) = Num ((s + 1) mod 2 ^ 14)
    /\ (s < 16383 -> (s + 1) mod 2 ^ 14 = s + 1)
    /\ (s = 16383 -> (s + 1) mod 2 ^ 14 = 0).
Proof.
  intros st now e Hst He Hlt.
  destruct (reachable_ok st Hst) as (ts & s & n & t & -> & Hs & _ & _ & Ht).
  cbn [timestamp js_lt] in Hlt. apply Z.ltb_lt in Hlt.
  destruct (genV1_step now ts s n t e He Hs ltac:(lia))
    as (s' & t' & -> & _ & Hc).
  exists s. cbn [sequence]. split; [reflexivity|].
  change (2 ^ 14) with 16384 in *.
  destruct Hc as [(_ & _ & ->) | [(Heq & _) | (Heq & _)]]; try lia.
  destruct (Z.ltb_spec now ts); [|lia].
  split; [reflexivity|].
  split; [intros; apply Z.mod_small; lia | intros ->; reflexivity].
Qed.

Lemma top_sequence_state_reachable : reachable top_sequence_state.
Proof.
  apply reachable_genV1.
  - apply reachable_new, entropy_of_unit. repeat constructor; discriminate.
  - apply entropy_of_unit. constructor.
Qed.

Lemma genV1_clock_backward_witness :
  exists s,
    sequence top_sequence_state = Num s
    /\ sequence (snd (fst (genV1 999 top_sequence_state halves)))
       = Num ((s + 1) mod 2 ^ 14)
    /\ (s < 16383 -> (s + 1) mod 2 ^ 14 = s + 1)
    /\ (s = 16383 -> (s + 1) mod 2 ^ 14 = 0).
Proof.
  apply (genV1_clock_backward top_sequence_state 999 halves
           top_sequence_state_reachable halves_unit).
  reflexivity.
Defined.

(** C3 as stated fails: the sequence 0x3FFF is followed by 0, which is
    not greater. *)
Lemma genV1_clock_backward_wraps :
  reachable top_sequence_state
  /\ in_unit_interval halves
  /\ js_lt (Num 999) (timestamp top_sequence_state) = true
  /\ sequence top_sequence_state = Num 16383
  /\ sequence (snd (fst (genV1 999 top_sequence_state halves))) = Num 0
  /\ js_lt (sequence top_sequence_state)
           (sequence (snd (fst (genV1 999 top_sequence_state halves))))
     = false.
Proof.
  split; [exact top_sequence_state_reachable|].
  split; [exact halves_unit|].
  repeat split; vm_compute; reflexivity.
Qed.

(** C4 at a failing input.  [carry_state] is reachable; a further call
    in the same millisecond advances the tick to 16, [timeLow] becomes
    2^32 and the string has nine digits in its first group: 37
    characters, which [parse] itself rejects. *)
Theorem genV1_timeLow_carry :
  reachable carry_state
  /\ tick carry_state = Num 15
  /\ nth_error (intFields carry_uuid) 0 = Some (Num (2 ^ 32))
  /\ hexString carry_uuid = lit "100000000-d22b-11f1-a000-818020000000"
  /\ js_length (hexString carry_uuid) = 37
  /\ parse (toString carry_uuid) = None.
Proof.
  split.
  - apply reachable_genV1.
    + apply reachable_new, halves_unit.
    + apply entropy_of_unit. repeat constructor; discriminate.
  - repeat split; vm_compute; reflexivity.
Qed.

(* ================================================================= *)
(** ** The time fields *)

Lemma round53_exact : forall n, - 2 ^ 53 < n < 2 ^ 53 -> round53 n = n.
Proof.
  intros n Hn. unfold round53.
  destruct (Z.leb_spec (Z.log2 (Z.abs n) - 52) 0) as [_ | Hlog];
    [reflexivity|].
  assert (Ha : 0 < Z.abs n).
  { destruct (Z.eq_dec (Z.abs n) 0) as [E | E]; [|lia].
    rewrite E in Hlog. change (Z.log2 0) with 0 in Hlog. lia. }
  assert (Hlt : Z.abs n < 2 ^ 53) by lia.
  apply Z.log2_lt_pow2 in Hlt; lia.
Qed.

Lemma land_ones_ToInt32 : forall z k, 0 <= k <= 32 ->
  Z.land (ToInt32 z) (Z.ones k) = Z.land z (Z.ones k).
Proof.
  intros z k Hk. rewrite land_ToInt32_ones by lia.
  now rewrite Z.land_ones by lia.
Qed.

(** While [delta * 625] fits 53 bits (until 2039-06-20T23:40:07.585Z
    for a clock after 1582) the product is exact and the code returns
    the fields of the formulas. *)
Lemma time_fields_exact : forall now,
  - 2 ^ 53 < spec_delta now * 625 < 2 ^ 53 ->
  _getTimeFieldValues (Num now)
  = mkTimeFields (Num (spec_low (spec_delta now)))
                 (Num (spec_mid (spec_delta now)))
                 (Num (spec_hi (spec_delta now)))
                 (Num (spec_delta now)).
Proof.
  intros now Hr. unfold _getTimeFieldValues. cbn [js_sub].
  fold (spec_delta now). set (delta := spec_delta now) in *.
  assert (Hhm : real_and (scaled_high (Num delta)) (Num 0xFFFFFFF)
                = Num (spec_highPart delta)).
  { unfold real_and, scaled_high, spec_highPart, int32_of, Qtruncate.
    rewrite round53_exact by exact Hr.
    change (ToInt32 0xFFFFFFF) with (Z.ones 28).
    change 0xFFFFFFF with (Z.ones 28).
    rewrite land_ones_ToInt32 by lia. do 2 f_equal.
    cbn [Qnum Qden Qmult Qdiv Qinv inject_Z].
    change (2 ^ 32) with 4294967296. cbn [Qnum Qden Qmult Qdiv Qinv inject_Z].
    change (Z.pos (2 ^ 28)) with 268435456.
    change (Z.pos (1 * 4294967296 * 1)) with (268435456 * 16).
    replace (delta * 1 * 10000) with (delta * 625 * 16) by ring.
    symmetry. apply Z.quot_mul_cancel_r; lia. }
  rewrite Hhm.
  assert (Hb : 0 <= spec_highPart delta < 2 ^ 28).
  { unfold spec_highPart. change 0xFFFFFFF with (Z.ones 28).
    rewrite Z.land_ones by lia. apply Z.mod_pos_bound. reflexivity. }
  change (2 ^ 28) with 268435456 in Hb.
  f_equal.
  - unfold js_rem, js_mul, js_and, int32_of, spec_low.
    change (0x100000000 =? 0) with false. cbv iota.
    change (ToInt32 0xFFFFFFF) with (Z.ones 28).
    change 0xFFFFFFF with (Z.ones 28).
    rewrite land_ones_ToInt32 by lia. f_equal.
    apply Z.rem_mod_nonneg; [|reflexivity].
    rewrite Z.land_ones by lia.
    pose proof (Z.mod_pos_bound delta (2 ^ 28) eq_refl). lia.
  - unfold js_and, int32_of, spec_mid.
    change (ToInt32 0xFFFF) with (Z.ones 16). change 0xFFFF with (Z.ones 16).
    now rewrite land_ones_ToInt32 by lia.
  - unfold js_ushr, uint32_of, spec_hi.
    change (ToUint32 16 mod 32) with 16.
    rewrite ToUint32_small by (change (2 ^ 32) with 4294967296; lia).
    reflexivity.
Qed.

(** The rounding of [round53] is the one of the primitive binary64
    product, here and at the other instants used below. *)
Example scaled_high_binary64 :
  map binary64_scaled_high
      [spec_delta rounding_time; spec_delta carry_time; spec_delta 0;
       spec_delta 8640000000000000; spec_delta (- 8640000000000000)]
  = map (fun ts => Some (Z.quot (round53 (ts * 625)) (2 ^ 28)))
        [spec_delta rounding_time; spec_delta carry_time; spec_delta 0;
         spec_delta 8640000000000000; spec_delta (- 8640000000000000)].
Proof. vm_compute. reflexivity. Qed.

Example scaled_high_binary64_range :
  forallb (fun k => binary64_agrees
                      (spec_delta rounding_time - 1000 + Z.of_nat k))
          (seq 0 2000) = true
  /\ forallb (fun k => binary64_agrees (2 ^ 53 / 625 - 1000 + Z.of_nat k))
             (seq 0 2000) = true.
Proof. split; vm_compute; reflexivity. Qed.

(** C5 at a failing input.  At 2039-06-21T16:15:07.631Z the exact value
    of [(delta / 2^32) * 10000] is 33554570 + (2^28 - 1) / 2^28, a
    54-bit significand; binary64 rounds it to 33554571, so the code
    returns [mid = 139] where the formulas give 138. *)
Theorem time_fields_rounding :
  spec_highPart (spec_delta rounding_time) = 33554570
  /\ spec_mid (spec_delta rounding_time) = 138
  /\ spec_hi (spec_delta rounding_time) = 512
  /\ binary64_scaled_high (spec_delta rounding_time) = Some 33554571
  /\ mid (_getTimeFieldValues (Num rounding_time)) = Num 139
  /\ hi (_getTimeFieldValues (Num rounding_time)) = Num 512
  /\ low (_getTimeFieldValues (Num rounding_time))
     = Num (spec_low (spec_delta rounding_time)).
Proof. repeat split; vm_compute; reflexivity. Qed.

(* ================================================================= *)
(** ** Field values wider than their field *)

(** At or above [radix^len] the aligner has nothing to pad: the string
    is the plain representation, longer than [len], and reads back as
    the value. *)
Lemma aligner_wide : forall radix v len,
  2 <= radix <= 16 -> 0 <= len -> radix ^ len <= v ->
  _getIntAligner radix (Num v) len = integer_toString radix v
  /\ len < js_length (integer_toString radix v)
  /\ parseInt (integer_toString radix v) (Some radix) = Num v.
Proof.
  intros radix v len Hr Hlen Hv.
  assert (Hpos : 0 < radix ^ len) by (apply Z.pow_pos_nonneg; lia).
  assert (Hlong : len < js_length (integer_toString radix v)).
  { unfold integer_toString. destruct (Z.ltb_spec v 0); [lia|].
    pose proof (to_digits_length_gt radix ltac:(lia)
                  (Z.to_nat (Z.log2 v)) v (Z.to_nat len) []) as Hgt.
    fold (digits_fuel v) in Hgt. rewrite Z2Nat.id in Hgt by lia.
    cbn [List.length] in Hgt. unfold js_length.
    assert (0 <= v < 2 ^ Z.of_nat (digits_fuel v))
      by (split; [lia | apply digits_fuel_enough; lia]).
    specialize (Hgt H0 Hv). lia. }
  split; [|split; [exact Hlong|]].
  - rewrite aligner_eq.
    replace (Z.to_nat (len - js_length (integer_toString radix v)))
      with 0%nat by lia.
    reflexivity.
  - unfold integer_toString. destruct (Z.ltb_spec v 0); [lia|].
    rewrite parseInt_radix_hex.
    + now rewrite parse_digits_natural by lia.
    + lia.
    + apply to_digits_nonempty.
    + apply to_digits_is_hex; auto; lia.
Qed.

Lemma wide_field : forall v size,
  In size FIELD_SIZES -> 2 ^ size <= v ->
  parseInt_number (or_zero (Num v)) = Num v
  /\ _binAligner (Num v) size = integer_toString 2 v
  /\ size < js_length (integer_toString 2 v)
  /\ parseInt (integer_toString 2 v) (Some 2) = Num v
  /\ _hexAligner (Num v) (size / 4) = integer_toString 16 v
  /\ size / 4 < js_length (integer_toString 16 v)
  /\ parseInt (integer_toString 16 v) (Some 16) = Num v.
Proof.
  intros v size Hin Hv.
  assert (H16 : 0 <= size / 4 /\ 16 ^ (size / 4) <= v /\ 0 <= size).
  { simpl in Hin.
    destruct Hin as [<- | [<- | [<- | [<- | [<- | [<- | []]]]]]];
      repeat split; try (vm_compute; discriminate); exact Hv. }
  destruct H16 as (Hq & H16 & Hsz).
  destruct (aligner_wide 2 v size ltac:(lia) Hsz Hv) as (B1 & B2 & B3).
  destruct (aligner_wide 16 v (size / 4) ltac:(lia) Hq H16) as (X1 & X2 & X3).
  split; [apply init_int_value|]. unfold _binAligner, _hexAligner. auto 10.
Qed.

(** C8 as the code has it.  A field value at or above 2^width (and
    below 2^53, where a double holds every integer) is accepted and
    nothing is truncated: the stored integer is the value, the stored
    binary string is its plain binary representation, longer than the
    declared number of bits, and the stored hex string its plain hex
    representation, longer than a quarter of it; both strings read
    back as the value. *)
Theorem init_keeps_wide_values :
  forall (a0 a1 a2 a3 a4 a5 : number) (i : nat) (v size : Z),
  nth_error [a0; a1; a2; a3; a4; a5] i = Some (Num v) ->
  nth_error FIELD_SIZES i = Some size ->
  2 ^ size <= v < 2 ^ 53 ->
  let u := _init a0 a1 a2 a3 a4 a5 in
  nth_error (intFields u) i = Some (Num v)
  /\ nth_error (bitFields u) i = Some (integer_toString 2 v)
  /\ size < js_length (integer_toString 2 v)
  /\ parseInt (integer_toString 2 v) (Some 2) = Num v
  /\ nth_error (hexFields u) i = Some (integer_toString 16 v)
  /\ size / 4 < js_length (integer_toString 16 v)
  /\ parseInt (integer_toString 16 v) (Some 16) = Num v.
Proof.
  intros a0 a1 a2 a3 a4 a5 i v size Ha Hsize [Hv _] u. subst u.
  assert (Hin : In size FIELD_SIZES) by (eapply nth_error_In; eassumption).
  destruct (wide_field v size Hin Hv) as (W0 & W1 & W2 & W3 & W4 & W5 & W6).
  unfold _init. cbn [intFields bitFields hexFields].
  do 6 (destruct i as [|i];
        [ cbn [nth_error] in Ha, Hsize;
          injection Ha as ->; injection Hsize as <-;
          cbn [FIELD_SIZES combine map nth_error fst snd];
          rewrite W0, W1, W4; auto 10 |]).
  destruct i; discriminate Ha.
Qed.

Lemma init_keeps_wide_values_witness :
  nth_error (hexFields wide_uuid) 0 = Some (integer_toString 16 (2 ^ 32))
  /\ 32 / 4 < js_length (integer_toString 16 (2 ^ 32)).
Proof.
  pose proof (init_keeps_wide_values
                (Num (2 ^ 32)) (Num 0) (Num 0) (Num 0) (Num 0) (Num 0)
                0 (2 ^ 32) 32 eq_refl eq_refl ltac:(lia)) as H.
  cbv zeta in H. split; apply H.
Defined.

(** C8 as stated fails: a 33-bit [timeLow] is stored as 33 binary
    digits and 9 hex digits, not cut to 32 and 8. *)
Lemma init_does_not_truncate :
  nth_error (intFields wide_uuid) 0 = Some (Num (2 ^ 32))
  /\ nth_error (hexFields wide_uuid) 0 = Some (lit "100000000")
  /\ option_map js_length (nth_error (bitFields wide_uuid) 0) = Some 33
  /\ option_map js_length (nth_error (hexFields wide_uuid) 0) = Some 9
  /\ ~ (option_map js_length (nth_error (bitFields wide_uuid) 0) = Some 32
        /\ option_map js_length (nth_error (hexFields wide_uuid) 0)
           = Some (32 / 4)).
Proof.
  repeat split; try (vm_compute; reflexivity).
  intros [H _]. vm_compute in H. discriminate H.
Qed.

(* ================================================================= *)
(** ** The pattern of parse *)

Lemma js_string_eqb_eq : forall a b, js_string_eqb a b = true <-> a = b.
Proof.
  induction a as [|x a IH]; intros [|y b]; simpl; split; try easy.
  - intros H. apply andb_prop in H. destruct H as [Hx Hab].
    apply Z.eqb_eq in Hx. apply IH in Hab. congruence.
  - intros H. injection H as -> ->. rewrite Z.eqb_refl. now apply IH.
Qed.

Lemma take_hex_app : forall n g rest,
  hex_group n g -> take_hex n (g ++ rest) = Some (g, rest).
Proof.
  induction n as [|n IH]; intros [|c g] rest [Hlen Hhex];
    simpl in Hlen; try discriminate; [reflexivity|].
  simpl in Hhex. apply andb_prop in Hhex. destruct Hhex as [Hc Hg].
  simpl. rewrite Hc, IH; [reflexivity|]. split; [lia | exact Hg].
Qed.

Lemma take_hex_inv : forall n s g rest,
  take_hex n s = Some (g, rest) -> s = g ++ rest /\ hex_group n g.
Proof.
  induction n as [|n IH]; intros s g rest H; simpl in H.
  - injection H as <- <-. repeat split.
  - destruct s as [|c s]; [discriminate|].
    destruct (is_hex c) eqn:Hc; [|discriminate].
    destruct (take_hex n s) as [[g' rest']|] eqn:E; [|discriminate].
    injection H as <- <-. destruct (IH _ _ _ E) as (-> & Hlen & Hhex).
    repeat split; simpl; [now rewrite Hlen | now rewrite Hc].
Qed.

Lemma take_char_inv : forall c s rest,
  take_char c s = Some rest -> s = c :: rest.
Proof.
  intros c [|x s] rest H; simpl in H; [discriminate|].
  destruct (Z.eqb_spec x c) as [-> |]; [|discriminate]. congruence.
Qed.

Lemma take_char_same : forall c rest, take_char c (c :: rest) = Some rest.
Proof. intros. simpl. now rewrite Z.eqb_refl. Qed.

Lemma take_ci_app : forall pat pre rest,
  toLowerCase pre = pat -> take_ci pat (pre ++ rest) = Some (pre, rest).
Proof.
  induction pat as [|p pat IH]; intros [|c pre] rest H;
    simpl in H; try discriminate; [reflexivity|].
  injection H as Hc Hpre. simpl. rewrite Hc, Z.eqb_refl.
  now rewrite (IH pre rest Hpre).
Qed.

Lemma take_ci_inv : forall pat s g rest,
  take_ci pat s = Some (g, rest) -> s = g ++ rest /\ toLowerCase g = pat.
Proof.
  induction pat as [|p pat IH]; intros s g rest H; simpl in H.
  - injection H as <- <-. split; reflexivity.
  - destruct s as [|c s]; [discriminate|].
    destruct (Z.eqb_spec (lower_char c) p) as [Hc|]; [|discriminate].
    destruct (take_ci pat s) as [[g' rest']|] eqn:E; [|discriminate].
    injection H as <- <-. destruct (IH _ _ _ E) as [-> Hg].
    split; [reflexivity|]. simpl. now rewrite Hc, Hg.
Qed.

Lemma skip_spaces_inv : forall s,
  exists w, s = w ++ skip_spaces s /\ white w.
Proof.
  induction s as [|c s (w & Hs & Hw)]; [now exists []|].
  simpl. destruct (is_space c) eqn:Hc.
  - exists (c :: w). split; [simpl; now rewrite <- Hs|].
    unfold white. simpl. now rewrite Hc.
  - now exists [].
Qed.

Lemma skip_spaces_app : forall w c rest,
  white w -> is_space c = false ->
  skip_spaces (w ++ c :: rest) = c :: rest.
Proof.
  induction w as [|x w IH]; intros c rest Hw Hc; simpl.
  - now rewrite Hc.
  - unfold white in Hw. simpl in Hw. apply andb_prop in Hw.
    destruct Hw as [Hx Hw]. rewrite Hx. now apply IH.
Qed.

Lemma white_no_brace : forall w, white w -> take_char 125 w = None.
Proof.
  intros [|c w] Hw; [reflexivity|]. unfold white in Hw. simpl in Hw.
  apply andb_prop in Hw. destruct Hw as [Hc _]. simpl.
  destruct (Z.eqb_spec c 125) as [-> |]; [discriminate Hc | reflexivity].
Qed.

Lemma match_tail_app : forall suf w2,
  grammar_suffix suf -> white w2 ->
  exists t, match_tail (suf ++ w2) = Some t /\ or_empty t = suf.
Proof.
  intros suf w2 [-> | ->] Hw; unfold match_tail.
  - exists None. simpl app. rewrite (white_no_brace w2 Hw).
    unfold white in Hw. simpl. now rewrite Hw.
  - exists (Some (lit "}")). change (lit "}" ++ w2) with (125 :: w2).
    rewrite take_char_same. unfold white in Hw. now rewrite Hw.
Qed.

Lemma match_tail_inv : forall s t,
  match_tail s = Some t ->
  exists w2, s = or_empty t ++ w2 /\ white w2 /\ grammar_suffix (or_empty t).
Proof.
  intros s t H. unfold match_tail in H.
  destruct (take_char 125 s) as [s'|] eqn:E.
  - apply take_char_inv in E. subst s.
    destruct (forallb is_space s') eqn:Hs'.
    + simpl in H. injection H as <-. exists s'.
      repeat split; [exact Hs' | now right].
    + simpl in H. discriminate H.
  - simpl in H. destruct (forallb is_space s) eqn:Hs; [|discriminate].
    injection H as <-. exists s. repeat split; [exact Hs | now left].
Qed.

Lemma lit_dash : forall x, lit "-" ++ x = 45 :: x.
Proof. reflexivity. Qed.

Lemma match_body_app : forall l g2 g3 g4 g5 g6 g7 tail t,
  hex_group 8 g2 -> hex_group 4 g3 -> hex_group 4 g4 ->
  hex_group 2 g5 -> hex_group 2 g6 -> hex_group 12 g7 ->
  match_tail tail = Some t ->
  match_body l
    (g2 ++ lit "-" ++ g3 ++ lit "-" ++ g4 ++ lit "-"
        ++ g5 ++ g6 ++ lit "-" ++ g7 ++ tail)
  = Some (mkMatch l g2 g3 g4 g5 g6 g7 t).
Proof.
  intros l g2 g3 g4 g5 g6 g7 tail t H2 H3 H4 H5 H6 H7 Ht.
  unfold match_body.
  rewrite (take_hex_app 8 g2 _ H2), lit_dash, take_char_same.
  rewrite (take_hex_app 4 g3 _ H3), lit_dash, take_char_same.
  rewrite (take_hex_app 4 g4 _ H4), lit_dash, take_char_same.
  rewrite (take_hex_app 2 g5 _ H5), (take_hex_app 2 g6 _ H6).
  rewrite lit_dash, take_char_same.
  rewrite (take_hex_app 12 g7 _ H7), Ht. reflexivity.
Qed.

Lemma match_body_inv : forall l s r,
  match_body l s = Some r ->
  exists g2 g3 g4 g5 g6 g7 tail t,
    s = g2 ++ lit "-" ++ g3 ++ lit "-" ++ g4 ++ lit "-"
           ++ g5 ++ g6 ++ lit "-" ++ g7 ++ tail
    /\ match_tail tail = Some t
    /\ r = mkMatch l g2 g3 g4 g5 g6 g7 t
    /\ hex_group 8 g2 /\ hex_group 4 g3 /\ hex_group 4 g4
    /\ hex_group 2 g5 /\ hex_group 2 g6 /\ hex_group 12 g7.
Proof.
  intros l s r H. unfold match_body in H.
  destruct (take_hex 8 s) as [[g2 s2]|] eqn:E2; [|discriminate].
  destruct (take_char 45 s2) as [s2'|] eqn:D2; [|discriminate].
  destruct (take_hex 4 s2') as [[g3 s3]|] eqn:E3; [|discriminate].
  destruct (take_char 45 s3) as [s3'|] eqn:D3; [|discriminate].
  destruct (take_hex 4 s3') as [[g4 s4]|] eqn:E4; [|discriminate].
  destruct (take_char 45 s4) as [s4'|] eqn:D4; [|discriminate].
  destruct (take_hex 2 s4') as [[g5 s5]|] eqn:E5; [|discriminate].
  destruct (take_hex 2 s5) as [[g6 s6]|] eqn:E6; [|discriminate].
  destruct (take_char 45 s6) as [s6'|] eqn:D6; [|discriminate].
  destruct (take_hex 12 s6') as [[g7 s7]|] eqn:E7; [|discriminate].
  destruct (match_tail s7) as [t|] eqn:Et; [|discriminate].
  injection H as <-.
  apply take_hex_inv in E2, E3, E4, E5, E6, E7.
  apply take_char_inv in D2, D3, D4, D6.
  destruct E2 as [-> G2], E3 as [-> G3], E4 as [-> G4], E5 as [-> G5],
    E6 as [-> G6], E7 as [-> G7].
  subst. exists g2, g3, g4, g5, g6, g7, s7, t.
  rewrite !lit_dash.
  repeat (split; [first [reflexivity | assumption]|]). assumption.
Qed.

Lemma hex_not_u : forall c, is_hex c = true ->
  is_space c = false /\ (lower_char c =? 117) = false /\ (c =? 123) = false.
Proof.
  intros c Hc. split; [now apply is_hex_not_space|].
  apply is_hex_range in Hc. unfold lower_char.
  split; [|apply Z.eqb_neq; lia].
  destruct ((65 <=? c) && (c <=? 90)); apply Z.eqb_neq; lia.
Qed.

(** The pattern accepts every text of the grammar, and captures its
    prefix, its groups and its suffix. *)
Lemma exec_complete : forall w1 pre g2 g3 g4 g5 g6 g7 suf w2,
  white w1 -> white w2 -> grammar_prefix pre -> grammar_suffix suf ->
  hex_group 8 g2 -> hex_group 4 g3 -> hex_group 4 g4 ->
  hex_group 2 g5 -> hex_group 2 g6 -> hex_group 12 g7 ->
  exists l t,
    exec (w1 ++ pre ++ g2 ++ lit "-" ++ g3 ++ lit "-" ++ g4 ++ lit "-"
             ++ g5 ++ g6 ++ lit "-" ++ g7 ++ suf ++ w2)
    = Some (mkMatch l g2 g3 g4 g5 g6 g7 t)
    /\ or_empty l = pre /\ or_empty t = suf.
Proof.
  intros w1 pre g2 g3 g4 g5 g6 g7 suf w2 Hw1 Hw2 Hpre Hsuf H2 H3 H4 H5 H6 H7.
  destruct (match_tail_app suf w2 Hsuf Hw2) as (t & Ht & Hts).
  pose proof (fun l => match_body_app l g2 g3 g4 g5 g6 g7 (suf ++ w2) t
                         H2 H3 H4 H5 H6 H7 Ht) as Hbody.
  set (body := g2 ++ lit "-" ++ g3 ++ lit "-" ++ g4 ++ lit "-"
                  ++ g5 ++ g6 ++ lit "-" ++ g7 ++ suf ++ w2) in *.
  unfold exec. destruct Hpre as [-> | [-> | Hurn]].
  - exists None, t. simpl app.
    assert (Hhead : exists c tl, body = c :: tl /\ is_hex c = true).
    { subst body. destruct g2 as [|c g2]; [destruct H2; discriminate|].
      destruct H2 as [_ H2]. simpl in H2. apply andb_prop in H2.
      exists c. eexists. split; [reflexivity | apply H2]. }
    destruct Hhead as (c & tl & Hb & Hc).
    destruct (hex_not_u c Hc) as (Hs & Hu & Hbr).
    rewrite Hb, skip_spaces_app by assumption. rewrite <- Hb.
    replace (take_ci (lit "urn:uuid:") body) with (@None (js_string * js_string))
      by (rewrite Hb; simpl; now rewrite Hu).
    replace (take_char 123 body) with (@None js_string)
      by (rewrite Hb; simpl; now rewrite Hbr).
    simpl orelse. now rewrite Hbody.
  - exists (Some (lit "{")), t. change (lit "{" ++ body) with (123 :: body).
    rewrite skip_spaces_app by (assumption || reflexivity).
    change (take_ci (lit "urn:uuid:") (123 :: body))
      with (@None (js_string * js_string)).
    rewrite take_char_same. simpl orelse. now rewrite Hbody.
  - exists (Some pre), t.
    destruct pre as [|c pre']; [discriminate Hurn|].
    assert (Hc : is_space c = false).
    { injection Hurn as Hc _. unfold lower_char in Hc.
      destruct ((65 <=? c) && (c <=? 90)) eqn:E.
      - assert (c = 85) by lia. subst c. reflexivity.
      - subst c. reflexivity. }
    rewrite <- app_comm_cons, skip_spaces_app by assumption.
    rewrite app_comm_cons, (take_ci_app _ _ _ Hurn), Hbody.
    simpl orelse. auto.
Qed.

(** Whatever the pattern accepts is a text of the grammar. *)
Lemma exec_sound : forall s r,
  exec s = Some r ->
  grammar (or_empty (group1 r)) (or_empty (group8 r)) s.
Proof.
  intros s r H. unfold exec in H.
  destruct (skip_spaces_inv s) as (w1 & Hs & Hw1).
  set (s1 := skip_spaces s) in *.
  assert (Hbody : forall l rest,
            match_body l rest = Some r -> grammar_prefix (or_empty l) ->
            s1 = or_empty l ++ rest ->
            grammar (or_empty (group1 r)) (or_empty (group8 r)) s).
  { intros l rest Hm Hl Hs1.
    destruct (match_body_inv l rest r Hm)
      as (g2 & g3 & g4 & g5 & g6 & g7 & tail & t & -> & Ht & -> & G).
    destruct (match_tail_inv tail t Ht) as (w2 & -> & Hw2 & Hsuf).
    cbn [group1 group8]. rewrite Hs, Hs1.
    repeat rewrite <- app_assoc.
    apply grammar_intro; try assumption; apply G. }
  destruct (take_ci (lit "urn:uuid:") s1) as [[l rest]|] eqn:E1.
  - destruct (take_ci_inv _ _ _ _ E1) as [Hs1 Hl].
    destruct (match_body (Some l) rest) as [r'|] eqn:E2.
    + simpl in H. injection H as ->.
      apply (Hbody (Some l) rest E2); [now right; right | exact Hs1].
    + simpl in H. destruct (take_char 123 s1) as [rest'|] eqn:E3.
      * apply take_char_inv in E3.
        destruct (match_body (Some (lit "{")) rest') as [r'|] eqn:E4.
        -- simpl in H. injection H as ->.
           apply (Hbody (Some (lit "{")) rest' E4); [now right; left|].
           exact E3.
        -- simpl in H. apply (Hbody None s1 H); [now left | reflexivity].
      * simpl in H. apply (Hbody None s1 H); [now left | reflexivity].
  - simpl in H. destruct (take_char 123 s1) as [rest'|] eqn:E3.
    + apply take_char_inv in E3.
      destruct (match_body (Some (lit "{")) rest') as [r'|] eqn:E4.
      * simpl in H. injection H as ->.
        apply (Hbody (Some (lit "{")) rest' E4); [now right; left|].
        exact E3.
      * simpl in H. apply (Hbody None s1 H); [now left | reflexivity].
    + simpl in H. apply (Hbody None s1 H); [now left | reflexivity].
Qed.

(* ================================================================= *)
(** ** parse *)

(** The test [parse] makes on groups 1 and 8. *)
Lemma pairing_check : forall l t,
  js_string_eqb (l ++ t) (lit "")
  || (js_string_eqb l (lit "{") && js_string_eqb t (lit "}"))
  || (js_string_eqb (toLowerCase l) (lit "urn:uuid:")
      && js_string_eqb t (lit "")) = true
  <-> consistent l t.
Proof.
  intros l t. unfold consistent. change (lit "") with (@nil char).
  rewrite !orb_true_iff, !andb_true_iff, !js_string_eqb_eq.
  split.
  - intros [[H | H] | H]; auto. apply app_eq_nil in H. auto.
  - intros [[-> ->] | [H | H]]; auto.
Qed.

(** On a text of the grammar [parse] depends on the pairing alone. *)
Lemma parse_grammar : forall w1 pre g2 g3 g4 g5 g6 g7 suf w2,
  white w1 -> white w2 -> grammar_prefix pre -> grammar_suffix suf ->
  hex_group 8 g2 -> hex_group 4 g3 -> hex_group 4 g4 ->
  hex_group 2 g5 -> hex_group 2 g6 -> hex_group 12 g7 ->
  let text := w1 ++ pre ++ g2 ++ lit "-" ++ g3 ++ lit "-" ++ g4 ++ lit "-"
                 ++ g5 ++ g6 ++ lit "-" ++ g7 ++ suf ++ w2 in
  (consistent pre suf ->
   parse text = Some (_init (parseInt g2 (Some 16)) (parseInt g3 (Some 16))
                            (parseInt g4 (Some 16)) (parseInt g5 (Some 16))
                            (parseInt g6 (Some 16)) (parseInt g7 (Some 16))))
  /\ (~ consistent pre suf -> parse text = None).
Proof.
  intros w1 pre g2 g3 g4 g5 g6 g7 suf w2 Hw1 Hw2 Hpre Hsuf H2 H3 H4 H5 H6 H7
         text.
  destruct (exec_complete w1 pre g2 g3 g4 g5 g6 g7 suf w2
              Hw1 Hw2 Hpre Hsuf H2 H3 H4 H5 H6 H7) as (l & t & He & Hl & Ht).
  fold text in He. unfold parse. rewrite He.
  cbn [group1 group2 group3 group4 group5 group6 group7 group8].
  rewrite Hl, Ht. pose proof (pairing_check pre suf) as Hchk.
  destruct (js_string_eqb (pre ++ suf) (lit "")
            || js_string_eqb pre (lit "{") && js_string_eqb suf (lit "}")
            || js_string_eqb (toLowerCase pre) (lit "urn:uuid:")
               && js_string_eqb suf (lit "")).
  - split; [reflexivity|]. intros Hn. elim Hn. now apply Hchk.
  - split; [|reflexivity]. intros Hc. apply Hchk in Hc. discriminate Hc.
Qed.

Lemma parse_sound : forall text u,
  parse text = Some u ->
  exists pre suf, grammar pre suf text /\ consistent pre suf.
Proof.
  intros text u H. unfold parse in H.
  destruct (exec text) as [r|] eqn:E; [|discriminate].
  exists (or_empty (group1 r)), (or_empty (group8 r)).
  split; [now apply exec_sound|].
  apply pairing_check.
  match type of H with
  | (if ?c then _ else _) = _ => destruct c; [reflexivity | discriminate H]
  end.
Qed.

(** C6.  [parse] is total and returns [null] ([None]) exactly on the
    texts that are not in the grammar with a consistent pairing of
    prefix and suffix (none and none, [{] and [}], or [urn:uuid:] and
    none); a text of the grammar with any other pairing is refused
    although its hex groups match. *)
Theorem parse_null_iff_grammar : forall text,
  (parse text = None
   <-> ~ exists pre suf, grammar pre suf text /\ consistent pre suf)
  /\ (forall pre suf,
        grammar pre suf text -> ~ consistent pre suf -> parse text = None).
Proof.
  intros text.
  assert (Hg : forall pre suf, grammar pre suf text ->
            (consistent pre suf -> parse text <> None)
            /\ (~ consistent pre suf -> parse text = None)).
  { intros pre suf G.
    destruct G as [w1 g2 g3 g4 g5 g6 g7 w2 Hw1 Hw2 Hpre Hsuf H2 H3 H4 H5 H6 H7].
    destruct (parse_grammar w1 pre g2 g3 g4 g5 g6 g7 suf w2
                Hw1 Hw2 Hpre Hsuf H2 H3 H4 H5 H6 H7) as [Hyes Hno].
    cbv zeta in Hyes, Hno. split; [|exact Hno].
    intros Hc. rewrite (Hyes Hc). discriminate. }
  split; [split|].
  - intros Hnone (pre & suf & G & Hc). now apply (proj1 (Hg pre suf G) Hc).
  - intros Hnot. destruct (parse text) as [u|] eqn:E; [|reflexivity].
    elim Hnot. now apply parse_sound with u.
  - intros pre suf G Hn. now apply (proj2 (Hg pre suf G)).
Qed.

Lemma parse_null_iff_grammar_witness :
  parse (lit "{01234567-89ab-4def-8123-456789abcdef") = None
  /\ parse (lit "urn:uuid:01234567-89ab-4def-8123-456789abcdef}") = None.
Proof.
  split.
  - apply (proj2 (parse_null_iff_grammar
                    (lit "{01234567-89ab-4def-8123-456789abcdef"))
             (lit "{") []).
    + apply (grammar_intro (lit "{") [] [] (lit "01234567") (lit "89ab")
               (lit "4def") (lit "81") (lit "23") (lit "456789abcdef") []);
        try reflexivity; try (split; reflexivity);
        [right; left; reflexivity | left; reflexivity].
    + intros [[H _] | [[_ H] | [H _]]]; discriminate H.
  - apply (proj2 (parse_null_iff_grammar
                    (lit "urn:uuid:01234567-89ab-4def-8123-456789abcdef}"))
             (lit "urn:uuid:") (lit "}")).
    + apply (grammar_intro (lit "urn:uuid:") (lit "}") [] (lit "01234567")
               (lit "89ab") (lit "4def") (lit "81") (lit "23")
               (lit "456789abcdef") []);
        try reflexivity; try (split; reflexivity);
        [right; right; reflexivity | right; reflexivity].
    + intros [[H _] | [[H _] | [_ H]]]; discriminate H.
Defined.

(* ================================================================= *)
(** ** toString and parse *)

Lemma hex_field : forall x w,
  0 <= x < 16 ^ Z.of_nat (S w) ->
  hex_group (S w) (_hexAligner (Num x) (Z.of_nat (S w)))
  /\ parseInt (_hexAligner (Num x) (Z.of_nat (S w))) (Some 16) = Num x.
Proof.
  intros x w Hx. unfold _hexAligner.
  destruct (aligner_in_width 16 w x ltac:(lia) Hx) as (Hlen & Hhex & Hval).
  split; [split; assumption|].
  rewrite parseInt_16_hex; try assumption.
  - specialize (Hval []). rewrite app_nil_r in Hval. now rewrite Hval.
  - intros E. rewrite E in Hlen. discriminate Hlen.
Qed.

Lemma init_hexString : forall a b c d e f,
  hexString (_init (Num a) (Num b) (Num c) (Num d) (Num e) (Num f))
  = _hexAligner (Num a) (Z.of_nat 8) ++ lit "-"
      ++ _hexAligner (Num b) (Z.of_nat 4) ++ lit "-"
      ++ _hexAligner (Num c) (Z.of_nat 4) ++ lit "-"
      ++ _hexAligner (Num d) (Z.of_nat 2) ++ _hexAligner (Num e) (Z.of_nat 2)
      ++ lit "-" ++ _hexAligner (Num f) (Z.of_nat 12).
Proof.
  intros. unfold _init.
  cbn [hexString map combine fst snd nth FIELD_SIZES].
  rewrite !init_int_value. reflexivity.
Qed.

(** C2.  For six integers within the widths 32, 16, 16, 8, 8 and 48,
    parsing the [hexString] of the identifier built from them yields
    that identifier again, whose integer fields are the six integers. *)
Theorem parse_toString_roundtrip : forall a b c d e f,
  0 <= a < 2 ^ 32 -> 0 <= b < 2 ^ 16 -> 0 <= c < 2 ^ 16 ->
  0 <= d < 2 ^ 8 -> 0 <= e < 2 ^ 8 -> 0 <= f < 2 ^ 48 ->
  let u := _init (Num a) (Num b) (Num c) (Num d) (Num e) (Num f) in
  parse (toString u) = Some u
  /\ intFields u = [Num a; Num b; Num c; Num d; Num e; Num f]
  /\ forall v, parse (toString u) = Some v -> equals u (JsUUID v) = true.
Proof.
  intros a b c d e f Ha Hb Hc Hd He Hf u.
  destruct (hex_field a 7 Ha) as [Ga Pa]. destruct (hex_field b 3 Hb) as [Gb Pb].
  destruct (hex_field c 3 Hc) as [Gc Pc]. destruct (hex_field d 1 Hd) as [Gd Pd].
  destruct (hex_field e 1 He) as [Ge Pe]. destruct (hex_field f 11 Hf) as [Gf Pf].
  assert (Hparse : parse (toString u) = Some u).
  { unfold toString. subst u. rewrite init_hexString.
    pose proof (parse_grammar [] []
                  (_hexAligner (Num a) (Z.of_nat 8))
                  (_hexAligner (Num b) (Z.of_nat 4))
                  (_hexAligner (Num c) (Z.of_nat 4))
                  (_hexAligner (Num d) (Z.of_nat 2))
                  (_hexAligner (Num e) (Z.of_nat 2))
                  (_hexAligner (Num f) (Z.of_nat 12)) [] []
                  eq_refl eq_refl (or_introl eq_refl) (or_introl eq_refl)
                  Ga Gb Gc Gd Ge Gf) as [Hyes _].
    cbv zeta in Hyes. cbn [app] in Hyes. rewrite app_nil_r in Hyes.
    rewrite Hyes by (left; split; reflexivity).
    now rewrite Pa, Pb, Pc, Pd, Pe, Pf. }
  split; [exact Hparse|]. split; [apply init_intFields|].
  intros v Hv. rewrite Hparse in Hv. injection Hv as <-.
  apply equals_true_iff; try apply init_six_integers. reflexivity.
Qed.

Lemma parse_toString_roundtrip_witness :
  parse (toString (_init (Num 19088743) (Num 35243) (Num 19951)
                         (Num 129) (Num 35) (Num 76310993685999)))
  = Some (_init (Num 19088743) (Num 35243) (Num 19951)
                (Num 129) (Num 35) (Num 76310993685999)).
Proof.
  apply (parse_toString_roundtrip 19088743 35243 19951 129 35 76310993685999);
    lia.
Defined.

(* ================================================================= *)
(** ** The examples of the specification *)

Example align_255_16_4 : _hexAligner (Num 255) 4 = lit "00ff".
Proof. reflexivity. Qed.

Example align_5_2_4 : _binAligner (Num 5) 4 = lit "0101".
Proof. reflexivity. Qed.

Example parse_urn :
  option_map intFields
    (parse (lit "urn:uuid:01234567-89ab-4def-8123-456789abcdef"))
  = Some [Num 0x01234567; Num 0x89ab; Num 0x4def; Num 0x81; Num 0x23;
          Num 0x456789abcdef].
Proof. vm_compute. reflexivity. Qed.

Example parse_braced :
  option_map hexString
    (parse (lit "  {01234567-89AB-4DEF-8123-456789abcdef} "))
  = Some (lit "01234567-89ab-4def-8123-456789abcdef").
Proof. vm_compute. reflexivity. Qed.

Example parse_rejects :
  map parse
    [lit "{01234567-89ab-4def-8123-456789abcdef";
     lit "0123456789ab-4def-8123-456789abcdef";
     lit "01234567-89ab-4def-8123-456789abcde";
     lit "01234567-89ab-4def-8123-456789abcdeg";
     lit "urn:uuid:{01234567-89ab-4def-8123-456789abcdef}"]
  = [None; None; None; None; None].
Proof. vm_compute. reflexivity. Qed.

Example Empty_is_nil :
  option_map hexString Empty
  = Some (lit "00000000-0000-0000-0000-000000000000")
  /\ option_map version Empty = Some (Num 0)
  /\ Empty = Some nil_uuid.
Proof. repeat split; vm_compute; reflexivity. Qed.

Example Date_UTC_value : Date_UTC_1582_10_15 = -12219292800000.
Proof. reflexivity. Qed.

(* ================================================================= *)
(** * Further properties of the class *)

(** ** Bit patterns *)

Lemma lor_pow2 : forall k c, 0 <= k -> 0 <= c < 2 ^ k ->
  Z.lor (2 ^ k) c = 2 ^ k + c.
Proof.
  intros k c Hk Hc.
  assert (Hland : Z.land (2 ^ k) c = 0).
  { apply Z.bits_inj'. intros n Hn. rewrite Z.land_spec, Z.bits_0.
    rewrite Z.pow2_bits_eqb by lia.
    destruct (Z.eqb_spec k n) as [<- |]; [|reflexivity].
    destruct (Z.eq_dec c 0) as [-> | Hne]; [now rewrite Z.bits_0|].
    rewrite Z.bits_above_log2; [reflexivity | lia |].
    apply Z.log2_lt_pow2; lia. }
  now rewrite <- Z.lxor_lor, <- Z.add_nocarry_lxor.
Qed.

Lemma js_or_small : forall a b,
  - 2 ^ 31 <= a < 2 ^ 31 -> - 2 ^ 31 <= b < 2 ^ 31 ->
  js_or (Num a) (Num b) = Num (Z.lor a b).
Proof.
  intros a b Ha Hb. unfold js_or, int32_of. now rewrite !ToInt32_small.
Qed.

(** The version nibble of a 16-bit [timeHiAndVersion]. *)
Lemma version_nibble : forall t, 0 <= t < 2 ^ 16 ->
  js_and (js_shr (Num t) (Num 12)) (Num 0xF) = Num (t / 4096).
Proof.
  intros t Ht. change (2 ^ 16) with 65536 in Ht.
  unfold js_and, js_shr, int32_of, uint32_of.
  change (ToUint32 12 mod 32) with 12. change (ToInt32 0xF) with (Z.ones 4).
  rewrite (ToInt32_small t) by (change (2 ^ 31) with 2147483648; lia).
  rewrite Z.shiftr_div_pow2 by lia. change (2 ^ 12) with 4096.
  rewrite land_ToInt32_ones by lia. f_equal. change (2 ^ 4) with 16.
  apply Z.mod_small.
  split; [apply Z.div_pos; lia | apply Z.div_lt_upper_bound; lia].
Qed.

(* ================================================================= *)
(** ** The value of a hex group *)

Lemma is_hex_digit : forall c, is_hex c = true ->
  exists d, digit_value c = Some d /\ 0 <= d < 16.
Proof.
  intros c Hc. apply is_hex_range in Hc. unfold digit_value.
  destruct Hc as [H | [H | H]].
  - exists (c - 48).
    replace ((48 <=? c) && (c <=? 57)) with true
      by (symmetry; apply andb_true_intro; split; apply Z.leb_le; lia).
    split; [reflexivity | lia].
  - exists (c - 87).
    replace ((48 <=? c) && (c <=? 57)) with false
      by (symmetry; apply andb_false_intro2; apply Z.leb_gt; lia).
    replace ((97 <=? c) && (c <=? 122)) with true
      by (symmetry; apply andb_true_intro; split; apply Z.leb_le; lia).
    split; [reflexivity | lia].
  - exists (c - 55).
    replace ((48 <=? c) && (c <=? 57)) with false
      by (symmetry; apply andb_false_intro2; apply Z.leb_gt; lia).
    replace ((97 <=? c) && (c <=? 122)) with false
      by (symmetry; apply andb_false_intro1; apply Z.leb_gt; lia).
    replace ((65 <=? c) && (c <=? 90)) with true
      by (symmetry; apply andb_true_intro; split; apply Z.leb_le; lia).
    split; [reflexivity | lia].
Qed.

Lemma parse_digits_hex_value : forall g a,
  forallb is_hex g = true ->
  parse_digits 16 g (Some a) = Some (hex_value a g).
Proof.
  induction g as [|c g IH]; intros a Hg; [reflexivity|].
  simpl in Hg. apply andb_prop in Hg. destruct Hg as [Hc Hg].
  destruct (is_hex_digit c Hc) as (d & Hd & Hr).
  simpl. rewrite Hd. destruct (Z.ltb_spec d 16); [|lia]. now apply IH.
Qed.

Lemma parse_digits_hex_value_None : forall g,
  g <> [] -> forallb is_hex g = true ->
  parse_digits 16 g None = Some (hex_value 0 g).
Proof.
  intros [|c g] Hne Hg; [congruence|].
  simpl in Hg. apply andb_prop in Hg. destruct Hg as [Hc Hg].
  destruct (is_hex_digit c Hc) as (d & Hd & Hr).
  simpl. rewrite Hd. destruct (Z.ltb_spec d 16); [|lia].
  now apply parse_digits_hex_value.
Qed.

Lemma hex_value_app : forall g1 g2 a,
  hex_value a (g1 ++ g2) = hex_value (hex_value a g1) g2.
Proof.
  induction g1 as [|c g1 IH]; intros g2 a; [reflexivity|]. simpl. apply IH.
Qed.

Lemma hex_value_range : forall g a,
  0 <= a -> forallb is_hex g = true ->
  a * 16 ^ Z.of_nat (List.length g) <= hex_value a g
  < (a + 1) * 16 ^ Z.of_nat (List.length g).
Proof.
  induction g as [|c g IH]; intros a Ha Hg.
  - simpl. lia.
  - simpl in Hg. apply andb_prop in Hg. destruct Hg as [Hc Hg].
    destruct (is_hex_digit c Hc) as (d & Hd & Hr).
    cbn [hex_value List.length]. rewrite Hd.
    rewrite Nat2Z.inj_succ, Z.pow_succ_r by lia.
    specialize (IH (a * 16 + d) ltac:(lia) Hg).
    assert (0 < 16 ^ Z.of_nat (List.length g))
      by (apply Z.pow_pos_nonneg; lia).
    nia.
Qed.

(** A hex group of [n] digits reads as an integer below [16^n]. *)
Lemma parseInt_hex_group : forall n g,
  hex_group (S n) g ->
  parseInt g (Some 16) = Num (hex_value 0 g)
  /\ 0 <= hex_value 0 g < 16 ^ Z.of_nat (S n).
Proof.
  intros n g [Hlen Hhex].
  assert (Hne : g <> []) by (intros ->; discriminate Hlen).
  split.
  - rewrite parseInt_16_hex by assumption.
    now rewrite parse_digits_hex_value_None.
  - pose proof (hex_value_range g 0 ltac:(lia) Hhex) as Hr.
    rewrite Hlen in Hr. lia.
Qed.

(* ================================================================= *)
(** ** Identifiers within the field widths *)

(** Every accepted way of writing an in-width identifier parses to it. *)
Lemma parse_wrapped : forall a b c d e f w1 pre suf w2,
  in_width a b c d e f ->
  white w1 -> white w2 -> grammar_prefix pre -> grammar_suffix suf ->
  consistent pre suf ->
  parse (w1 ++ pre
            ++ hexString (_init (Num a) (Num b) (Num c) (Num d) (Num e) (Num f))
            ++ suf ++ w2)
  = Some (_init (Num a) (Num b) (Num c) (Num d) (Num e) (Num f)).
Proof.
  intros a b c d e f w1 pre suf w2 (Ha & Hb & Hc & Hd & He & Hf)
         Hw1 Hw2 Hpre Hsuf Hcons.
  destruct (hex_field a 7 Ha) as [Ga Pa]. destruct (hex_field b 3 Hb) as [Gb Pb].
  destruct (hex_field c 3 Hc) as [Gc Pc]. destruct (hex_field d 1 Hd) as [Gd Pd].
  destruct (hex_field e 1 He) as [Ge Pe]. destruct (hex_field f 11 Hf) as [Gf Pf].
  rewrite init_hexString. repeat rewrite <- app_assoc.
  pose proof (parse_grammar w1 pre _ _ _ _ _ _ suf w2 Hw1 Hw2 Hpre Hsuf
                Ga Gb Gc Gd Ge Gf) as [Hyes _].
  cbv zeta in Hyes. rewrite (Hyes Hcons).
  now rewrite Pa, Pb, Pc, Pd, Pe, Pf.
Qed.

(** X9.  The plain, the braced and the URN form of an in-width identifier,
    with white space around them, all parse to the identifier. *)
Theorem parse_textual_forms : forall a b c d e f w1 w2,
  in_width a b c d e f -> white w1 -> white w2 ->
  let u := _init (Num a) (Num b) (Num c) (Num d) (Num e) (Num f) in
  parse (w1 ++ hexString u ++ w2) = Some u
  /\ parse (w1 ++ lit "{" ++ hexString u ++ lit "}" ++ w2) = Some u
  /\ parse (w1 ++ urn u ++ w2) = Some u.
Proof.
  intros a b c d e f w1 w2 Hw Hw1 Hw2 u. subst u. split; [|split].
  - apply (parse_wrapped a b c d e f w1 [] [] w2 Hw Hw1 Hw2);
      [now left | now left | left; split; reflexivity].
  - apply (parse_wrapped a b c d e f w1 (lit "{") (lit "}") w2 Hw Hw1 Hw2);
      [right; now left | now right | right; left; split; reflexivity].
  - change (urn (_init (Num a) (Num b) (Num c) (Num d) (Num e) (Num f)))
      with (lit "urn:uuid:"
              ++ hexString (_init (Num a) (Num b) (Num c) (Num d) (Num e)
                                  (Num f))).
    rewrite <- app_assoc.
    apply (parse_wrapped a b c d e f w1 (lit "urn:uuid:") [] w2 Hw Hw1 Hw2);
      [right; now right | now left | right; right; split; reflexivity].
Qed.

Lemma parse_textual_forms_witness :
  parse (lit "  " ++ urn nil_uuid ++ lit " ") = Some nil_uuid.
Proof.
  apply (parse_textual_forms 0 0 0 0 0 0 (lit "  ") (lit " "));
    try reflexivity.
  unfold in_width. repeat split; lia.
Defined.

Lemma exec_groups : forall s r,
  exec s = Some r ->
  hex_group 8 (group2 r) /\ hex_group 4 (group3 r) /\ hex_group 4 (group4 r)
  /\ hex_group 2 (group5 r) /\ hex_group 2 (group6 r)
  /\ hex_group 12 (group7 r).
Proof.
  intros s r H. unfold exec in H.
  assert (Hbody : forall l rest, match_body l rest = Some r ->
            hex_group 8 (group2 r) /\ hex_group 4 (group3 r)
            /\ hex_group 4 (group4 r) /\ hex_group 2 (group5 r)
            /\ hex_group 2 (group6 r) /\ hex_group 12 (group7 r)).
  { intros l rest Hm.
    destruct (match_body_inv l rest r Hm)
      as (g2 & g3 & g4 & g5 & g6 & g7 & tail & t & _ & _ & -> & G).
    exact G. }
  destruct (take_ci (lit "urn:uuid:") (skip_spaces s)) as [[l rest]|].
  - destruct (match_body (Some l) rest) as [r'|] eqn:E2.
    + simpl in H. injection H as ->. now apply (Hbody _ _ E2).
    + simpl in H. destruct (take_char 123 (skip_spaces s)) as [rest'|].
      * destruct (match_body (Some (lit "{")) rest') as [r'|] eqn:E4.
        -- simpl in H. injection H as ->. now apply (Hbody _ _ E4).
        -- simpl in H. now apply (Hbody _ _ H).
      * simpl in H. now apply (Hbody _ _ H).
  - simpl in H. destruct (take_char 123 (skip_spaces s)) as [rest'|].
    + destruct (match_body (Some (lit "{")) rest') as [r'|] eqn:E4.
      * simpl in H. injection H as ->. now apply (Hbody _ _ E4).
      * simpl in H. now apply (Hbody _ _ H).
    + simpl in H. now apply (Hbody _ _ H).
Qed.

(** X10.  Whatever [parse] returns is an identifier within the field widths,
    whose own string parses back to it. *)
Theorem parse_result_canonical : forall text u,
  parse text = Some u ->
  exists a b c d e f,
    in_width a b c d e f
    /\ u = _init (Num a) (Num b) (Num c) (Num d) (Num e) (Num f)
    /\ intFields u = [Num a; Num b; Num c; Num d; Num e; Num f]
    /\ parse (toString u) = Some u.
Proof.
  intros text u H. unfold parse in H.
  destruct (exec text) as [r|] eqn:E; [|discriminate].
  destruct (exec_groups text r E) as (G2 & G3 & G4 & G5 & G6 & G7).
  destruct (parseInt_hex_group 7 _ G2) as [P2 B2].
  destruct (parseInt_hex_group 3 _ G3) as [P3 B3].
  destruct (parseInt_hex_group 3 _ G4) as [P4 B4].
  destruct (parseInt_hex_group 1 _ G5) as [P5 B5].
  destruct (parseInt_hex_group 1 _ G6) as [P6 B6].
  destruct (parseInt_hex_group 11 _ G7) as [P7 B7].
  match type of H with
  | (if ?c then _ else _) = _ => destruct c; [|discriminate H]
  end.
  injection H as <-. rewrite P2, P3, P4, P5, P6, P7.
  eexists _, _, _, _, _, _.
  assert (Hw : in_width (hex_value 0 (group2 r)) (hex_value 0 (group3 r))
                 (hex_value 0 (group4 r)) (hex_value 0 (group5 r))
                 (hex_value 0 (group6 r)) (hex_value 0 (group7 r))).
  { unfold in_width. auto 10. }
  split; [exact Hw|]. split; [reflexivity|]. split; [apply init_intFields|].
  unfold toString.
  pose proof (parse_wrapped _ _ _ _ _ _ [] [] [] [] Hw eq_refl eq_refl
                (or_introl eq_refl) (or_introl eq_refl)
                (or_introl (conj eq_refl eq_refl))) as Hp.
  cbn [app] in Hp. now rewrite app_nil_r in Hp.
Qed.

Lemma parse_result_canonical_witness :
  exists a b c d e f,
    in_width a b c d e f
    /\ nil_uuid = _init (Num a) (Num b) (Num c) (Num d) (Num e) (Num f)
    /\ intFields nil_uuid = [Num a; Num b; Num c; Num d; Num e; Num f]
    /\ parse (toString nil_uuid) = Some nil_uuid.
Proof.
  apply (parse_result_canonical
           (lit "{00000000-0000-0000-0000-000000000000}") nil_uuid).
  vm_compute. reflexivity.
Defined.

Lemma bin_field : forall x w,
  0 <= x < 2 ^ Z.of_nat (S w) ->
  List.length (_binAligner (Num x) (Z.of_nat (S w))) = S w
  /\ parseInt (_binAligner (Num x) (Z.of_nat (S w))) (Some 2) = Num x.
Proof.
  intros x w Hx. unfold _binAligner.
  destruct (aligner_in_width 2 w x ltac:(lia) Hx) as (Hlen & Hhex & Hval).
  split; [exact Hlen|].
  rewrite parseInt_radix_hex; try assumption; try lia.
  - specialize (Hval []). rewrite app_nil_r in Hval. now rewrite Hval.
  - intros E. rewrite E in Hlen. discriminate Hlen.
Qed.

Lemma filter_hex : forall g, forallb is_hex g = true ->
  filter (fun c => negb (c =? 45)) g = g.
Proof.
  induction g as [|c g IH]; intros Hg; [reflexivity|].
  simpl in Hg. apply andb_prop in Hg. destruct Hg as [Hc Hg].
  simpl. apply is_hex_range in Hc.
  destruct (Z.eqb_spec c 45); [lia|]. simpl. now rewrite IH.
Qed.

Lemma hexString_length_in_width : forall a b c d e f,
  in_width a b c d e f ->
  js_length (hexString (_init (Num a) (Num b) (Num c) (Num d) (Num e) (Num f)))
  = 36.
Proof.
  intros a b c d e f (Ha & Hb & Hc & Hd & He & Hf).
  destruct (hex_field a 7 Ha) as [[La _] _].
  destruct (hex_field b 3 Hb) as [[Lb _] _].
  destruct (hex_field c 3 Hc) as [[Lc _] _].
  destruct (hex_field d 1 Hd) as [[Ld _] _].
  destruct (hex_field e 1 He) as [[Le _] _].
  destruct (hex_field f 11 Hf) as [[Lf _] _].
  rewrite init_hexString. unfold js_length.
  rewrite !length_app, La, Lb, Lc, Ld, Le, Lf. reflexivity.
Qed.

(** X3.  For fields within their widths the stored strings have exactly the
    declared lengths and read back as the stored integers; the joined
    forms have 128, 32, 36 and 45 characters, and [hexNoDelim] is
    [hexString] without its hyphens. *)
Theorem init_field_strings : forall a b c d e f,
  in_width a b c d e f ->
  let u := _init (Num a) (Num b) (Num c) (Num d) (Num e) (Num f) in
  map js_length (bitFields u) = FIELD_SIZES
  /\ map js_length (hexFields u) = map (fun s => s / 4) FIELD_SIZES
  /\ map (fun s => parseInt s (Some 2)) (bitFields u) = intFields u
  /\ map (fun s => parseInt s (Some 16)) (hexFields u) = intFields u
  /\ js_length (bitString u) = 128
  /\ js_length (hexNoDelim u) = 32
  /\ js_length (hexString u) = 36
  /\ js_length (urn u) = 45
  /\ hexNoDelim u = filter (fun c => negb (c =? 45)) (hexString u).
Proof.
  intros a b c d e f (Ha & Hb & Hc & Hd & He & Hf) u.
  destruct (hex_field a 7 Ha) as [[La Xa] Pa].
  destruct (hex_field b 3 Hb) as [[Lb Xb] Pb].
  destruct (hex_field c 3 Hc) as [[Lc Xc] Pc].
  destruct (hex_field d 1 Hd) as [[Ld Xd] Pd].
  destruct (hex_field e 1 He) as [[Le Xe] Pe].
  destruct (hex_field f 11 Hf) as [[Lf Xf] Pf].
  destruct (bin_field a 31 Ha) as [Ba Qa]. destruct (bin_field b 15 Hb) as [Bb Qb].
  destruct (bin_field c 15 Hc) as [Bc Qc]. destruct (bin_field d 7 Hd) as [Bd Qd].
  destruct (bin_field e 7 He) as [Be Qe]. destruct (bin_field f 47 Hf) as [Bf Qf].
  assert (Hbits : bitFields u
                  = [_binAligner (Num a) (Z.of_nat 32);
                     _binAligner (Num b) (Z.of_nat 16);
                     _binAligner (Num c) (Z.of_nat 16);
                     _binAligner (Num d) (Z.of_nat 8);
                     _binAligner (Num e) (Z.of_nat 8);
                     _binAligner (Num f) (Z.of_nat 48)]).
  { subst u. unfold _init.
    cbn [bitFields map combine fst snd FIELD_SIZES].
    rewrite !init_int_value. reflexivity. }
  assert (Hhexs : hexFields u
                  = [_hexAligner (Num a) (Z.of_nat 8);
                     _hexAligner (Num b) (Z.of_nat 4);
                     _hexAligner (Num c) (Z.of_nat 4);
                     _hexAligner (Num d) (Z.of_nat 2);
                     _hexAligner (Num e) (Z.of_nat 2);
                     _hexAligner (Num f) (Z.of_nat 12)]).
  { subst u. unfold _init.
    cbn [hexFields map combine fst snd FIELD_SIZES].
    rewrite !init_int_value. reflexivity. }
  assert (Hints : intFields u = [Num a; Num b; Num c; Num d; Num e; Num f])
    by apply init_intFields.
  assert (Hstr : hexString u
                 = _hexAligner (Num a) (Z.of_nat 8) ++ lit "-"
                     ++ _hexAligner (Num b) (Z.of_nat 4) ++ lit "-"
                     ++ _hexAligner (Num c) (Z.of_nat 4) ++ lit "-"
                     ++ _hexAligner (Num d) (Z.of_nat 2)
                     ++ _hexAligner (Num e) (Z.of_nat 2) ++ lit "-"
                     ++ _hexAligner (Num f) (Z.of_nat 12))
    by apply init_hexString.
  assert (Hnod : hexNoDelim u = List.concat (hexFields u)) by reflexivity.
  assert (Hbit : bitString u = List.concat (bitFields u)) by reflexivity.
  assert (Hurn : urn u = lit "urn:uuid:" ++ hexString u) by reflexivity.
  rewrite Hurn, Hnod, Hbit, Hstr, Hbits, Hhexs, Hints.
  unfold js_length. cbn [map List.concat].
  rewrite !length_app, !filter_app.
  change (filter (fun c0 : Z => negb (c0 =? 45)) (lit "-")) with (@nil Z).
  rewrite !filter_hex by assumption.
  rewrite La, Lb, Lc, Ld, Le, Lf, Ba, Bb, Bc, Bd, Be, Bf.
  rewrite Pa, Pb, Pc, Pd, Pe, Pf, Qa, Qb, Qc, Qd, Qe, Qf.
  cbn [app]. rewrite !app_nil_r. repeat split.
Qed.

Lemma init_field_strings_witness :
  js_length (hexString nil_uuid) = 36
  /\ hexNoDelim nil_uuid = filter (fun c => negb (c =? 45)) (hexString nil_uuid).
Proof.
  pose proof (init_field_strings 0 0 0 0 0 0) as H. cbv zeta in H.
  assert (Hw : in_width 0 0 0 0 0 0) by (unfold in_width; repeat split; lia).
  split; apply (H Hw).
Defined.

(* ================================================================= *)
(** ** genV4 and generate *)

Lemma init_version : forall a b t d e f, 0 <= t < 2 ^ 16 ->
  version (_init (Num a) (Num b) (Num t) (Num d) (Num e) (Num f))
  = Num (t / 4096).
Proof.
  intros a b t d e f Ht. unfold _init. cbn [version map nth].
  rewrite init_int_value. now apply version_nibble.
Qed.

Lemma js_or_pow2 : forall k c, 0 <= k < 31 -> 0 <= c < 2 ^ k ->
  js_or (Num (2 ^ k)) (Num c) = Num (2 ^ k + c).
Proof.
  intros k c Hk Hc.
  assert (0 < 2 ^ k) by (apply Z.pow_pos_nonneg; lia).
  assert (2 ^ k <= 2 ^ 30) by (apply Z.pow_le_mono_r; lia).
  change (2 ^ 30) with 1073741824 in *.
  rewrite js_or_small by (change (2 ^ 31) with 2147483648; lia).
  now rewrite lor_pow2 by lia.
Qed.

(** The six arguments [genV4] hands to [_init]. *)
Lemma genV4_fields : forall e, in_unit_interval e ->
  exists a b c d e8 f,
    fst (genV4 e)
    = _init (Num a) (Num b) (Num (16384 + c)) (Num (128 + d)) (Num e8) (Num f)
    /\ 0 <= a < 2 ^ 32 /\ 0 <= b < 2 ^ 16 /\ 0 <= c < 2 ^ 12
    /\ 0 <= d < 2 ^ 6 /\ 0 <= e8 < 2 ^ 8 /\ 0 <= f < 2 ^ 48.
Proof.
  intros e0 He0. unfold genV4, bind.
  destruct (getRandomInt_range 32 e0 ltac:(lia) He0) as (a & e1 & -> & Ha & He1).
  destruct (getRandomInt_range 16 e1 ltac:(lia) He1) as (b & e2 & -> & Hb & He2).
  destruct (getRandomInt_range 12 e2 ltac:(lia) He2) as (c & e3 & -> & Hc & He3).
  destruct (getRandomInt_range 6 e3 ltac:(lia) He3) as (d & e4 & -> & Hd & He4).
  destruct (getRandomInt_range 8 e4 ltac:(lia) He4) as (e8 & e5 & -> & He8 & He5).
  destruct (getRandomInt_range 48 e5 ltac:(lia) He5) as (f & e6 & -> & Hf & He6).
  exists a, b, c, d, e8, f. unfold ret. cbn [fst].
  change (Num 0x4000) with (Num (2 ^ 14)). change (Num 0x80) with (Num (2 ^ 7)).
  rewrite (js_or_pow2 14 c) by (change (2 ^ 14) with 16384;
                                change (2 ^ 12) with 4096 in Hc; lia).
  rewrite (js_or_pow2 7 d) by (change (2 ^ 7) with 128;
                               change (2 ^ 6) with 64 in Hd; lia).
  repeat split; assumption || lia.
Qed.

(** X7.  Whatever the random source draws, [genV4] returns an identifier
    whose fields are within their widths, with version 4 and the two
    top bits of [clockSeqHiAndReserved] equal to 10. *)
Theorem genV4_version_variant : forall e,
  in_unit_interval e ->
  exists a b c d e8 f,
    intFields (fst (genV4 e)) = [Num a; Num b; Num c; Num d; Num e8; Num f]
    /\ in_width a b c d e8 f
    /\ version (fst (genV4 e)) = Num 4
    /\ c / 2 ^ 12 = 4
    /\ d / 2 ^ 6 = 2.
Proof.
  intros e He.
  destruct (genV4_fields e He)
    as (a & b & c & d & e8 & f & -> & Ha & Hb & Hc & Hd & He8 & Hf).
  change (2 ^ 12) with 4096 in *. change (2 ^ 6) with 64 in *.
  exists a, b, (16384 + c), (128 + d), e8, f.
  split; [apply init_intFields|].
  split; [unfold in_width; change (2 ^ 16) with 65536;
          change (2 ^ 8) with 256 in *; repeat split; lia|].
  split; [rewrite init_version by (change (2 ^ 16) with 65536; lia); f_equal|];
    repeat split; Z.div_mod_to_equations; lia.
Qed.

Lemma genV4_version_variant_witness :
  exists a b c d e8 f,
    intFields (fst (genV4 halves)) = [Num a; Num b; Num c; Num d; Num e8; Num f]
    /\ in_width a b c d e8 f
    /\ version (fst (genV4 halves)) = Num 4
    /\ c / 2 ^ 12 = 4
    /\ d / 2 ^ 6 = 2.
Proof. apply (genV4_version_variant halves halves_unit). Defined.

(** X8.  The string of a version-4 identifier is canonical: 36 characters
    that [parse] reads back as the identifier itself. *)
Theorem genV4_roundtrip : forall e,
  in_unit_interval e ->
  js_length (toString (fst (genV4 e))) = 36
  /\ parse (toString (fst (genV4 e))) = Some (fst (genV4 e))
  /\ equals (fst (genV4 e)) (JsUUID (fst (genV4 e))) = true.
Proof.
  intros e He.
  destruct (genV4_fields e He)
    as (a & b & c & d & e8 & f & -> & Ha & Hb & Hc & Hd & He8 & Hf).
  assert (Hw : in_width a b (16384 + c) (128 + d) e8 f).
  { unfold in_width. change (2 ^ 12) with 4096 in *.
    change (2 ^ 6) with 64 in *. change (2 ^ 16) with 65536.
    change (2 ^ 8) with 256 in *. repeat split; lia. }
  unfold toString. split; [|split].
  - now apply hexString_length_in_width.
  - pose proof (parse_wrapped _ _ _ _ _ _ [] [] [] [] Hw eq_refl eq_refl
                  (or_introl eq_refl) (or_introl eq_refl)
                  (or_introl (conj eq_refl eq_refl))) as Hp.
    cbn [app] in Hp. now rewrite app_nil_r in Hp.
  - apply equals_true_iff; try apply init_six_integers. reflexivity.
Qed.

Lemma genV4_roundtrip_witness :
  parse (toString (fst (genV4 halves))) = Some (fst (genV4 halves)).
Proof. apply (genV4_roundtrip halves halves_unit). Defined.

Lemma hex_group_split : forall g, hex_group 4 g ->
  exists g5 g6, g = g5 ++ g6 /\ hex_group 2 g5 /\ hex_group 2 g6.
Proof.
  intros g [Hlen Hhex].
  destruct g as [|c1 [|c2 [|c3 [|c4 [|c5 g]]]]]; try discriminate Hlen.
  simpl in Hhex.
  apply andb_prop in Hhex. destruct Hhex as [H1 Hhex].
  apply andb_prop in Hhex. destruct Hhex as [H2 Hhex].
  apply andb_prop in Hhex. destruct Hhex as [H3 Hhex].
  apply andb_prop in Hhex. destruct Hhex as [H4 _].
  exists [c1; c2], [c3; c4]. split; [reflexivity|].
  split; (split; [reflexivity | simpl; now rewrite ?H1, ?H2, ?H3, ?H4]).
Qed.

(** The five groups [generate] formats. *)
Lemma generate_groups : forall e, in_unit_interval e ->
  exists a b c d f,
    fst (generate e)
    = _hexAligner (Num a) (Z.of_nat 8) ++ lit "-"
        ++ _hexAligner (Num b) (Z.of_nat 4) ++ lit "-"
        ++ _hexAligner (Num (16384 + c)) (Z.of_nat 4) ++ lit "-"
        ++ _hexAligner (Num (32768 + d)) (Z.of_nat 4) ++ lit "-"
        ++ _hexAligner (Num f) (Z.of_nat 12)
    /\ 0 <= a < 2 ^ 32 /\ 0 <= b < 2 ^ 16 /\ 0 <= c < 2 ^ 12
    /\ 0 <= d < 2 ^ 14 /\ 0 <= f < 2 ^ 48.
Proof.
  intros e0 He0. unfold generate, bind.
  destruct (getRandomInt_range 32 e0 ltac:(lia) He0) as (a & e1 & -> & Ha & He1).
  destruct (getRandomInt_range 16 e1 ltac:(lia) He1) as (b & e2 & -> & Hb & He2).
  destruct (getRandomInt_range 12 e2 ltac:(lia) He2) as (c & e3 & -> & Hc & He3).
  destruct (getRandomInt_range 14 e3 ltac:(lia) He3) as (d & e4 & -> & Hd & He4).
  destruct (getRandomInt_range 48 e4 ltac:(lia) He4) as (f & e5 & -> & Hf & He5).
  exists a, b, c, d, f. unfold ret. cbn [fst].
  change (Num 0x4000) with (Num (2 ^ 14)). change (Num 0x8000) with (Num (2 ^ 15)).
  rewrite (js_or_pow2 14 c) by (change (2 ^ 14) with 16384;
                                change (2 ^ 12) with 4096 in Hc; lia).
  rewrite (js_or_pow2 15 d) by (change (2 ^ 15) with 32768;
                                change (2 ^ 14) with 16384 in Hd; lia).
  repeat split; assumption || lia.
Qed.

(** X6.  Whatever the random source draws, the string [generate] returns
    has 36 characters and [parse] accepts it, as an identifier of
    version 4 whose [clockSeqHiAndReserved] has its two top bits equal
    to 10. *)
Theorem generate_canonical : forall e,
  in_unit_interval e ->
  js_length (fst (generate e)) = 36
  /\ exists u h,
       parse (fst (generate e)) = Some u
       /\ six_integers u
       /\ version u = Num 4
       /\ intField u "clockSeqHiAndReserved" = Some (Num h)
       /\ h / 2 ^ 6 = 2 /\ 0 <= h < 2 ^ 8.
Proof.
  intros e He.
  destruct (generate_groups e He)
    as (a & b & c & d & f & -> & Ha & Hb & Hc & Hd & Hf).
  change (2 ^ 12) with 4096 in Hc. change (2 ^ 14) with 16384 in Hd.
  assert (Hc' : 0 <= 16384 + c < 16 ^ Z.of_nat 4)
    by (change (16 ^ Z.of_nat 4) with 65536; lia).
  assert (Hd' : 0 <= 32768 + d < 16 ^ Z.of_nat 4)
    by (change (16 ^ Z.of_nat 4) with 65536; lia).
  destruct (hex_field a 7 Ha) as [Ga Pa]. destruct (hex_field b 3 Hb) as [Gb Pb].
  destruct (hex_field (16384 + c) 3 Hc') as [Gc Pc].
  destruct (hex_field (32768 + d) 3 Hd') as [Gd Pd].
  destruct (hex_field f 11 Hf) as [Gf Pf].
  destruct (hex_group_split _ Gd) as (g5 & g6 & Hsplit & G5 & G6).
  destruct (parseInt_hex_group 1 g5 G5) as [P5 B5].
  destruct (parseInt_hex_group 1 g6 G6) as [P6 B6].
  assert (Hval : hex_value (hex_value 0 g5) g6 = 32768 + d).
  { rewrite <- hex_value_app, <- Hsplit.
    destruct (parseInt_hex_group 3 _ Gd) as [P _].
    rewrite Pd in P. now injection P. }
  assert (Hh : hex_value 0 g5 * 256 <= 32768 + d < (hex_value 0 g5 + 1) * 256).
  { rewrite <- Hval.
    pose proof (hex_value_range g6 (hex_value 0 g5) ltac:(lia) (proj2 G6)) as Hr.
    rewrite (proj1 G6) in Hr. exact Hr. }
  split.
  - unfold js_length. rewrite !length_app.
    rewrite (proj1 Ga), (proj1 Gb), (proj1 Gc), (proj1 Gd), (proj1 Gf).
    reflexivity.
  - pose proof (parse_grammar [] [] _ _ _ g5 g6 _ [] []
                  eq_refl eq_refl (or_introl eq_refl) (or_introl eq_refl)
                  Ga Gb Gc G5 G6 Gf) as [Hyes _].
    cbv zeta in Hyes. cbn [app] in Hyes. rewrite app_nil_r in Hyes.
    specialize (Hyes (or_introl (conj eq_refl eq_refl))).
    rewrite Pa, Pb, Pc, P5, P6, Pf in Hyes.
    rewrite Hsplit, <- app_assoc.
    eexists _, (hex_value 0 g5). split; [exact Hyes|].
    split; [apply init_six_integers|].
    split; [rewrite init_version by (change (2 ^ 16) with 65536; lia);
            f_equal; Z.div_mod_to_equations; lia|].
    split; [unfold intField;
            change (index_of "clockSeqHiAndReserved" FIELD_NAMES 0)
              with (Some 3%nat);
            now rewrite init_intFields|].
    change (2 ^ 6) with 64. change (2 ^ 8) with 256.
    split; [Z.div_mod_to_equations; lia | lia].
Qed.

Lemma generate_canonical_witness :
  js_length (fst (generate halves)) = 36.
Proof. apply (generate_canonical halves halves_unit). Defined.

(* ================================================================= *)
(** ** The identifiers and states of genV1 *)

(** The arguments [genV1] hands to [_init], with the bounds of the
    time fields: [low] is a multiple of 16 below 2^32. *)
Lemma uuid_of_state_init : forall ts,
  exists l m x,
    0 <= l < 2 ^ 32 /\ l mod 16 = 0 /\ 0 <= m < 2 ^ 16 /\ 0 <= x < 2 ^ 12
    /\ forall s n t, 0 <= s < 2 ^ 14 ->
         uuid_of_state (mkState (Num ts) (Num s) (Num n) (Num t))
         = _init (Num (l + t)) (Num m) (Num (4096 + x))
                 (Num (s / 256 + 128)) (Num (s mod 256)) (Num n).
Proof.
  intros ts.
  set (tf := _getTimeFieldValues (Num ts)).
  set (delta := ts - Date_UTC_1582_10_15).
  set (HM := Z.land (ToInt32 (Qtruncate (Qmake (round53 (delta * 625))
                                               (2 ^ 28)%positive)))
                    (Z.ones 28)).
  assert (Hl : low tf = Num (Z.rem (Z.land (ToInt32 delta) (Z.ones 28) * 10000)
                                   4294967296)) by reflexivity.
  assert (Hm : mid tf = Num (Z.land (ToInt32 HM) (Z.ones 16))) by reflexivity.
  assert (Hh : hi tf = Num (Z.shiftr (ToUint32 HM) 16)) by reflexivity.
  assert (BHM : 0 <= HM < 2 ^ 28).
  { subst HM. rewrite land_ToInt32_ones by lia.
    apply Z.mod_pos_bound. reflexivity. }
  change (2 ^ 28) with 268435456 in BHM.
  rewrite land_ToInt32_ones in Hl, Hm by lia.
  rewrite ToUint32_small in Hh by (change (2 ^ 32) with 4294967296; lia).
  rewrite Z.shiftr_div_pow2 in Hh by lia.
  change (2 ^ 16) with 65536 in *. change (2 ^ 28) with 268435456 in *.
  assert (BX : 0 <= delta mod 268435456 < 268435456)
    by (apply Z.mod_pos_bound; reflexivity).
  rewrite Z.rem_mod_nonneg in Hl by lia.
  assert (Bhi : 0 <= HM / 65536 < 4096).
  { split; [apply Z.div_pos; lia | apply Z.div_lt_upper_bound; lia]. }
  exists ((delta mod 268435456 * 10000) mod 4294967296),
         (HM mod 65536), (HM / 65536).
  change (2 ^ 32) with 4294967296. change (2 ^ 12) with 4096.
  split; [apply Z.mod_pos_bound; reflexivity|].
  split; [Z.div_mod_to_equations; lia|].
  split; [apply Z.mod_pos_bound; reflexivity|].
  split; [exact Bhi|].
  intros s n t Hs. change (2 ^ 14) with 16384 in Hs.
  unfold uuid_of_state. cbn [timestamp sequence node tick]. fold tf.
  rewrite Hl, Hm, Hh. unfold js_add at 1.
  assert (Hthav : js_or (js_and (Num (HM / 65536)) (Num 0xFFF)) (Num 0x1000)
                  = Num (4096 + HM / 65536)).
  { unfold js_and, int32_of. change (ToInt32 0xFFF) with (Z.ones 12).
    rewrite land_ToInt32_ones by lia. change (2 ^ 12) with 4096.
    rewrite Z.mod_small by lia.
    rewrite js_or_small by (change (2 ^ 31) with 2147483648; lia).
    rewrite Z.lor_comm. change 0x1000 with (2 ^ 12).
    rewrite lor_pow2 by (change (2 ^ 12) with 4096; lia). reflexivity. }
  assert (Hsh : js_or (js_ushr (Num s) (Num 8)) (Num 0x80)
                = Num (s / 256 + 128)).
  { unfold js_or, js_ushr, int32_of, uint32_of.
    change (ToUint32 8 mod 32) with 8. change (ToInt32 0x80) with 128.
    rewrite ToUint32_small by (change (2 ^ 32) with 4294967296; lia).
    rewrite Z.shiftr_div_pow2 by lia. change (2 ^ 8) with 256.
    assert (0 <= s / 256 < 64).
    { split; [apply Z.div_pos; lia | apply Z.div_lt_upper_bound; lia]. }
    rewrite ToInt32_small by (change (2 ^ 31) with 2147483648; lia).
    now rewrite lor_128 by lia. }
  assert (Hlo : js_and (Num s) (Num 0xFF) = Num (s mod 256)).
  { unfold js_and, int32_of. change (ToInt32 0xFF) with (Z.ones 8).
    now rewrite land_ToInt32_ones by lia. }
  now rewrite Hthav, Hsh, Hlo.
Qed.

(** One call from a reachable state: the state left behind, the
    arguments of [_init], and the three ways the state can move. *)
Lemma genV1_result : forall st now e,
  reachable st -> in_unit_interval e ->
  exists ts s n t s' t' l m x,
    st = mkState (Num ts) (Num s) (Num n) (Num t)
    /\ snd (fst (genV1 now st e)) = mkState (Num now) (Num s') (Num n) (Num t')
    /\ fst (fst (genV1 now st e))
       = _init (Num (l + t')) (Num m) (Num (4096 + x))
               (Num (s' / 256 + 128)) (Num (s' mod 256)) (Num n)
    /\ (0 <= s < 2 ^ 14 /\ 0 <= t < 10000 /\ 0 <= n < 2 ^ 48
        /\ Z.testbit n 40 = true)
    /\ (0 <= s' < 2 ^ 14 /\ 0 <= t' < 10000)
    /\ (0 <= l < 2 ^ 32 /\ l mod 16 = 0 /\ 0 <= m < 2 ^ 16 /\ 0 <= x < 2 ^ 12)
    /\ ((now <> ts /\ 0 <= t' < 16
         /\ s' = (if now <? ts then s + 1 else s) mod 2 ^ 14)
        \/ (now = ts /\ t < 9984 /\ t < t' <= t + 16 /\ s' = s)
        \/ (now = ts /\ t' = t /\ s' = (s + 1) mod 2 ^ 14)).
Proof.
  intros st now e Hst He.
  destruct (reachable_ok st Hst) as (ts & s & n & t & -> & Hs & Hn & Hb & Ht).
  rewrite genV1_uuid.
  destruct (genV1_step now ts s n t e He Hs ltac:(lia))
    as (s' & t' & -> & _ & Hc).
  assert (Hs' : 0 <= s' < 2 ^ 14).
  { destruct Hc as [(_ & _ & ->) | [(_ & _ & _ & ->) | (_ & _ & ->)]];
      try (apply Z.mod_pos_bound; reflexivity). exact Hs. }
  assert (Ht' : 0 <= t' < 10000).
  { destruct Hc as [(_ & H & _) | [(_ & H1 & H2 & _) | (_ & -> & _)]]; lia. }
  destruct (uuid_of_state_init now) as (l & m & x & Hl & Hl16 & Hm & Hx & Hu).
  exists ts, s, n, t, s', t', l, m, x.
  rewrite (Hu s' n t' Hs'). auto 20.
Qed.

(** X13.  Every version-1 identifier has version 1 and the variant bits 10;
    its clock sequence fields hold the sequence left in the state, and
    its node field the node of the state, which the call leaves as it
    was. *)
Theorem genV1_version_variant : forall st now e,
  reachable st -> in_unit_interval e ->
  let u := fst (fst (genV1 now st e)) in
  let st' := snd (fst (genV1 now st e)) in
  version u = Num 1
  /\ exists s n h,
       sequence st' = Num s /\ node st' = Num n /\ node st = Num n
       /\ intField u "clockSeqHiAndReserved" = Some (Num h)
       /\ h / 2 ^ 6 = 2 /\ h mod 2 ^ 6 = s / 2 ^ 8
       /\ intField u "clockSeqLow" = Some (Num (s mod 2 ^ 8))
       /\ intField u "node" = Some (Num n).
Proof.
  intros st now e Hst He u st'. subst u st'.
  destruct (genV1_result st now e Hst He)
    as (ts & s & n & t & s' & t' & l & m & x & -> & -> & -> & _ & (Hs' & _)
        & (_ & _ & _ & Hx) & _).
  change (2 ^ 12) with 4096 in Hx. change (2 ^ 14) with 16384 in Hs'.
  split.
  - rewrite init_version by (change (2 ^ 16) with 65536; lia).
    f_equal. Z.div_mod_to_equations; lia.
  - exists s', n, (s' / 256 + 128). unfold intField.
    change (index_of "clockSeqHiAndReserved" FIELD_NAMES 0) with (Some 3%nat).
    change (index_of "clockSeqLow" FIELD_NAMES 0) with (Some 4%nat).
    change (index_of "node" FIELD_NAMES 0) with (Some 5%nat).
    rewrite init_intFields. cbn [sequence node nth_error].
    change (2 ^ 6) with 64. change (2 ^ 8) with 256.
    repeat split; Z.div_mod_to_equations; lia.
Qed.

Lemma genV1_version_variant_witness :
  version (fst (fst (genV1 1000 (fst (new_UUIDState halves)) halves))) = Num 1.
Proof.
  apply (genV1_version_variant (fst (new_UUIDState halves)) 1000 halves
           (reachable_new halves halves_unit) halves_unit).
Defined.

(** X14.  A call keeps the state within its bounds, stores the clock value
    it read and never touches the node. *)
Theorem genV1_keeps_state : forall st now e,
  reachable st -> in_unit_interval e ->
  let st' := snd (fst (genV1 now st e)) in
  node st' = node st /\ timestamp st' = Num now /\ state_ok st'.
Proof.
  intros st now e Hst He st'. subst st'.
  split; [|split].
  - destruct (genV1_result st now e Hst He)
      as (ts & s & n & t & s' & t' & l & m & x & -> & -> & _). reflexivity.
  - destruct (genV1_result st now e Hst He)
      as (ts & s & n & t & s' & t' & l & m & x & -> & -> & _). reflexivity.
  - apply reachable_ok. now apply reachable_genV1.
Qed.

Lemma genV1_keeps_state_witness :
  node (snd (fst (genV1 1000 (fst (new_UUIDState halves)) halves)))
  = node (fst (new_UUIDState halves)).
Proof.
  apply (genV1_keeps_state (fst (new_UUIDState halves)) 1000 halves
           (reachable_new halves halves_unit) halves_unit).
Defined.



Lemma genV1_repeat_reachable : forall n now st,
  reachable st -> reachable (genV1_repeat n now st).
Proof.
  induction n as [|n IH]; intros now st Hst; [exact Hst|].
  simpl. apply IH. apply reachable_genV1; [exact Hst|].
  apply entropy_of_unit. repeat constructor; discriminate.
Qed.

Lemma spent_state_reachable : reachable spent_state.
Proof.
  apply genV1_repeat_reachable, reachable_genV1;
    [apply reachable_new|]; exact halves_unit.
Qed.

(** X16.  Once the tick has reached 9984, every further call that reads
    the stored clock value leaves the tick alone and adds one to the
    sequence, modulo 2^14, whatever the random source draws. *)
Theorem genV1_tick_budget : forall st now e t,
  reachable st -> in_unit_interval e ->
  timestamp st = Num now -> tick st = Num t -> 9984 <= t ->
  tick (snd (fst (genV1 now st e))) = Num t
  /\ exists s, sequence st = Num s
       /\ sequence (snd (fst (genV1 now st e))) = Num ((s + 1) mod 2 ^ 14).
Proof.
  intros st now e t0 Hst He Hts Htick Hle.
  destruct (genV1_result st now e Hst He)
    as (ts & s & n & t & s' & t' & l & m & x & -> & -> & _ & _ & _ & _ & Hc).
  cbn [timestamp tick] in Hts, Htick. injection Hts as ->.
  injection Htick as ->. cbn [tick sequence].
  destruct Hc as [(Hne & _) | [(_ & Hlt & _) | (_ & -> & ->)]]; try lia.
  split; [reflexivity|]. now exists s.
Qed.

Lemma genV1_tick_budget_witness :
  tick (snd (fst (genV1 1000 spent_state halves))) = Num 9992.
Proof.
  apply (genV1_tick_budget spent_state 1000 halves 9992
           spent_state_reachable halves_unit);
    [vm_compute; reflexivity | vm_compute; reflexivity | lia].
Defined.

(** A first group of more than eight hex digits is not accepted. *)
Lemma exec_long_first_group : forall g rest,
  forallb is_hex g = true -> (8 < List.length g)%nat ->
  exec (g ++ rest) = None.
Proof.
  intros g rest Hhex Hlen.
  destruct g as [|c1 [|c2 [|c3 [|c4 [|c5 [|c6 [|c7 [|c8 [|c9 g]]]]]]]]];
    simpl in Hlen; try lia.
  simpl in Hhex.
  repeat match type of Hhex with
         | _ && _ = true =>
             let H := fresh "Hc" in
             apply andb_prop in Hhex; destruct Hhex as [H Hhex]
         end.
  destruct (hex_not_u c1 Hc) as (Hs & Hu & Hbr).
  assert (H9 : (c9 =? 45) = false)
    by (apply is_hex_range in Hc7; apply Z.eqb_neq; lia).
  unfold exec. cbn [app skip_spaces]. rewrite Hs.
  change (lit "urn:uuid:") with (117 :: lit "rn:uuid:").
  cbn [take_ci take_char]. rewrite Hu, Hbr. cbn [orelse].
  unfold match_body. cbn [take_hex].
  rewrite Hc, Hc0, Hc1, Hc2, Hc3, Hc4, Hc5, Hc6.
  cbn [take_char]. now rewrite H9.
Qed.

(** X18.  The identifier [genV1] returns parses back exactly when its
    [timeLow] fits 32 bits; otherwise [parse] refuses its string. *)
Theorem genV1_parses_iff_timeLow_fits : forall st now e,
  reachable st -> in_unit_interval e ->
  let u := fst (fst (genV1 now st e)) in
  exists tl,
    intField u "timeLow" = Some (Num tl) /\ 0 <= tl
    /\ (tl < 2 ^ 32 ->
        parse (toString u) = Some u /\ js_length (toString u) = 36)
    /\ (2 ^ 32 <= tl -> parse (toString u) = None).
Proof.
  intros st now e Hst He u. subst u.
  destruct (genV1_result st now e Hst He)
    as (ts & s & n & t & s' & t' & l & m & x & -> & _ & -> & (_ & _ & Hn & _)
        & (Hs' & Ht') & (Hl & _ & Hm & Hx) & _).
  exists (l + t'). unfold intField.
  change (index_of "timeLow" FIELD_NAMES 0) with (Some 0%nat).
  rewrite init_intFields. cbn [nth_error].
  split; [reflexivity|]. split; [lia|].
  change (2 ^ 12) with 4096 in Hx. change (2 ^ 14) with 16384 in Hs'.
  unfold toString. split.
  - intros Hfit.
    assert (Hw : in_width (l + t') m (4096 + x) (s' / 256 + 128) (s' mod 256) n).
    { unfold in_width. change (2 ^ 16) with 65536 in *.
      change (2 ^ 8) with 256.
      repeat split; try lia; Z.div_mod_to_equations; lia. }
    split; [|now apply hexString_length_in_width].
    pose proof (parse_wrapped _ _ _ _ _ _ [] [] [] [] Hw eq_refl eq_refl
                  (or_introl eq_refl) (or_introl eq_refl)
                  (or_introl (conj eq_refl eq_refl))) as Hp.
    cbn [app] in Hp. now rewrite app_nil_r in Hp.
  - intros Hwide. rewrite init_hexString. unfold parse.
    destruct (aligner_wide 16 (l + t') (Z.of_nat 8) ltac:(lia) ltac:(lia) Hwide)
      as (Heq & Hlong & _).
    unfold _hexAligner. rewrite Heq, exec_long_first_group; [reflexivity | |].
    + unfold integer_toString. destruct (Z.ltb_spec (l + t') 0); [lia|].
      apply to_digits_is_hex; auto; lia.
    + unfold js_length in Hlong. lia.
Qed.

Lemma genV1_parses_iff_timeLow_fits_witness :
  exists tl,
    intField carry_uuid "timeLow" = Some (Num tl) /\ 0 <= tl
    /\ (tl < 2 ^ 32 ->
        parse (toString carry_uuid) = Some carry_uuid
        /\ js_length (toString carry_uuid) = 36)
    /\ (2 ^ 32 <= tl -> parse (toString carry_uuid) = None).
Proof.
  apply (genV1_parses_iff_timeLow_fits carry_state carry_time
           (entropy_of [0; 0]%Q)).
  - apply reachable_genV1; [apply reachable_new, halves_unit|].
    apply entropy_of_unit. repeat constructor; discriminate.
  - apply entropy_of_unit. repeat constructor; discriminate.
Defined.

(** X17.  A call that reads a clock value other than the stored one always
    returns a canonical identifier: [low] is a multiple of 16 and the
    fresh tick is below 16, so [timeLow] fits 32 bits and the string
    parses back. *)
Theorem genV1_fresh_clock_canonical : forall st now e,
  reachable st -> in_unit_interval e ->
  js_neq (Num now) (timestamp st) = true ->
  let u := fst (fst (genV1 now st e)) in
  parse (toString u) = Some u /\ js_length (toString u) = 36.
Proof.
  intros st now e Hst He Hne u. subst u.
  destruct (genV1_result st now e Hst He)
    as (ts & s & n & t & s' & t' & l & m & x & -> & _ & -> & (_ & _ & Hn & _)
        & (Hs' & _) & (Hl & Hl16 & Hm & Hx) & Hc).
  cbn [timestamp] in Hne. rewrite js_neq_Num in Hne.
  apply negb_true_iff, Z.eqb_neq in Hne.
  destruct Hc as [(_ & Ht' & _) | [(Heq & _) | (Heq & _)]]; try contradiction.
  change (2 ^ 12) with 4096 in Hx. change (2 ^ 14) with 16384 in Hs'.
  change (2 ^ 32) with 4294967296 in Hl.
  assert (Hw : in_width (l + t') m (4096 + x) (s' / 256 + 128) (s' mod 256) n).
  { unfold in_width. change (2 ^ 16) with 65536 in *.
    change (2 ^ 8) with 256. change (2 ^ 32) with 4294967296.
    repeat split; try lia; Z.div_mod_to_equations; lia. }
  unfold toString. split; [|now apply hexString_length_in_width].
  pose proof (parse_wrapped _ _ _ _ _ _ [] [] [] [] Hw eq_refl eq_refl
                (or_introl eq_refl) (or_introl eq_refl)
                (or_introl (conj eq_refl eq_refl))) as Hp.
  cbn [app] in Hp. now rewrite app_nil_r in Hp.
Qed.

Lemma genV1_fresh_clock_canonical_witness :
  parse (toString (fst (fst (genV1 1000 (fst (new_UUIDState halves)) halves))))
  = Some (fst (fst (genV1 1000 (fst (new_UUIDState halves)) halves))).
Proof.
  apply (genV1_fresh_clock_canonical (fst (new_UUIDState halves)) 1000 halves
           (reachable_new halves halves_unit) halves_unit).
  reflexivity.
Defined.

(* ================================================================= *)
(** ** The time fields as a count of 100 ns intervals *)

Lemma spec_highPart_div : forall delta,
  0 <= delta -> delta * 625 < 2 ^ 53 ->
  spec_highPart delta = delta * 10000 / 2 ^ 32.
Proof.
  intros delta H0 Hr. unfold spec_highPart, Qtruncate.
  change 0xFFFFFFF with (Z.ones 28).
  cbn [Qnum Qden Qmult Qdiv Qinv inject_Z].
  change (2 ^ 32) with 4294967296. cbn [Qnum Qden Qmult Qdiv Qinv inject_Z].
  change (Z.pos (1 * 4294967296 * 1)) with 4294967296.
  rewrite Z.quot_div_nonneg by lia. rewrite Z.land_ones by lia.
  change (2 ^ 53) with 9007199254740992 in Hr.
  rewrite Z.mul_1_r.
  apply Z.mod_small. change (2 ^ 28) with 268435456.
  split; [apply Z.div_pos; lia | apply Z.div_lt_upper_bound; lia].
Qed.

Lemma spec_fields_sum : forall delta,
  0 <= delta -> delta * 625 < 2 ^ 53 ->
  spec_low delta + 2 ^ 32 * spec_mid delta + 2 ^ 48 * spec_hi delta
  = delta * 10000
  /\ 0 <= spec_low delta < 2 ^ 32
  /\ 0 <= spec_mid delta < 2 ^ 16
  /\ 0 <= spec_hi delta < 2 ^ 12.
Proof.
  intros delta H0 Hr. unfold spec_mid, spec_hi, spec_low.
  rewrite (spec_highPart_div delta H0 Hr).
  change 0xFFFFFFF with (Z.ones 28). change 0xFFFF with (Z.ones 16).
  rewrite !Z.land_ones, Z.shiftr_div_pow2 by lia.
  change (2 ^ 53) with 9007199254740992 in Hr.
  change (2 ^ 32) with 4294967296. change (2 ^ 28) with 268435456.
  change (2 ^ 16) with 65536. change (2 ^ 48) with 281474976710656.
  change (2 ^ 12) with 4096.
  Z.div_mod_to_equations. lia.
Qed.

(** X12.  From 1582 until the product [delta * 625] leaves 53 bits (clock
    values up to 2039-06-20T23:40:07.585Z) the three time fields are
    the bits 0-31, 32-47 and 48-59 of the count of 100 ns intervals
    since 1582-10-15. *)
Theorem time_fields_are_count : forall now,
  0 <= spec_delta now -> spec_delta now * 625 < 2 ^ 53 ->
  exists l m h,
    _getTimeFieldValues (Num now)
    = mkTimeFields (Num l) (Num m) (Num h) (Num (spec_delta now))
    /\ 0 <= l < 2 ^ 32 /\ 0 <= m < 2 ^ 16 /\ 0 <= h < 2 ^ 12
    /\ l + 2 ^ 32 * m + 2 ^ 48 * h = spec_delta now * 10000.
Proof.
  intros now H0 Hr.
  destruct (spec_fields_sum (spec_delta now) H0 Hr) as (Hsum & Hl & Hm & Hh).
  exists (spec_low (spec_delta now)), (spec_mid (spec_delta now)),
         (spec_hi (spec_delta now)).
  split; [apply time_fields_exact; lia|]. auto.
Qed.

Lemma time_fields_are_count_witness :
  exists l m h,
    _getTimeFieldValues (Num carry_time)
    = mkTimeFields (Num l) (Num m) (Num h) (Num (spec_delta carry_time))
    /\ 0 <= l < 2 ^ 32 /\ 0 <= m < 2 ^ 16 /\ 0 <= h < 2 ^ 12
    /\ l + 2 ^ 32 * m + 2 ^ 48 * h = spec_delta carry_time * 10000.
Proof.
  apply (time_fields_are_count carry_time); vm_compute; [discriminate|reflexivity].
Defined.

(** X19.  For clock values from 1582 up to 2039-06-20T23:40:07.585Z the
    timestamp a version-1 identifier carries, [timeLow] plus 2^32
    [timeMid] plus 2^48 times the low 12 bits of [timeHiAndVersion], is
    the count of 100 ns intervals of the clock value plus the tick,
    also when [timeLow] has outgrown its 32 bits. *)
Theorem genV1_timestamp_value : forall st now e,
  reachable st -> in_unit_interval e ->
  0 <= spec_delta now -> spec_delta now * 625 < 2 ^ 53 ->
  let u := fst (fst (genV1 now st e)) in
  exists tl tm thav t,
    intField u "timeLow" = Some (Num tl)
    /\ intField u "timeMid" = Some (Num tm)
    /\ intField u "timeHiAndVersion" = Some (Num thav)
    /\ tick (snd (fst (genV1 now st e))) = Num t
    /\ tl + 2 ^ 32 * tm + 2 ^ 48 * (thav - 2 ^ 12)
       = spec_delta now * 10000 + t.
Proof.
  intros st now e Hst He H0 Hr u. subst u.
  destruct (genV1_result st now e Hst He)
    as (ts & s & n & t & s' & t' & l & m & x & -> & Hst' & _ & (Hs & _)
        & (Hs' & _) & _).
  rewrite genV1_uuid, Hst'. cbn [tick].
  destruct (spec_fields_sum (spec_delta now) H0 Hr) as (Hsum & Hl & Hm & Hh).
  unfold uuid_of_state. cbn [timestamp sequence node tick].
  rewrite time_fields_exact by lia. cbn [low mid hi].
  assert (Hthav : js_or (js_and (Num (spec_hi (spec_delta now))) (Num 0xFFF))
                        (Num 0x1000)
                  = Num (4096 + spec_hi (spec_delta now))).
  { change (2 ^ 12) with 4096 in Hh.
    unfold js_and, int32_of. change (ToInt32 0xFFF) with (Z.ones 12).
    rewrite land_ToInt32_ones by lia. change (2 ^ 12) with 4096.
    rewrite Z.mod_small by lia.
    rewrite js_or_small by (change (2 ^ 31) with 2147483648; lia).
    rewrite Z.lor_comm. change 0x1000 with (2 ^ 12).
    rewrite lor_pow2 by (change (2 ^ 12) with 4096; lia). reflexivity. }
  rewrite Hthav. cbn [js_add].
  assert (Hcs : exists h lo,
            js_or (js_ushr (Num s') (Num 8)) (Num 0x80) = Num h
            /\ js_and (Num s') (Num 0xFF) = Num lo)
    by (eexists _, _; split; reflexivity).
  destruct Hcs as (h & lo & -> & ->).
  exists (spec_low (spec_delta now) + t'), (spec_mid (spec_delta now)),
         (4096 + spec_hi (spec_delta now)), t'.
  unfold intField.
  change (index_of "timeLow" FIELD_NAMES 0) with (Some 0%nat).
  change (index_of "timeMid" FIELD_NAMES 0) with (Some 1%nat).
  change (index_of "timeHiAndVersion" FIELD_NAMES 0) with (Some 2%nat).
  rewrite init_intFields. cbn [nth_error].
  repeat split. change (2 ^ 12) with 4096.
  change (2 ^ 32) with 4294967296 in *.
  change (2 ^ 48) with 281474976710656 in *. lia.
Qed.

Lemma genV1_timestamp_value_witness :
  exists tl tm thav t,
    intField carry_uuid "timeLow" = Some (Num tl)
    /\ intField carry_uuid "timeMid" = Some (Num tm)
    /\ intField carry_uuid "timeHiAndVersion" = Some (Num thav)
    /\ tick (snd (fst (genV1 carry_time carry_state (entropy_of [0; 0]%Q))))
       = Num t
    /\ tl + 2 ^ 32 * tm + 2 ^ 48 * (thav - 2 ^ 12)
       = spec_delta carry_time * 10000 + t.
Proof.
  apply (genV1_timestamp_value carry_state carry_time (entropy_of [0; 0]%Q)).
  - apply reachable_genV1; [apply reachable_new, halves_unit|].
    apply entropy_of_unit. repeat constructor; discriminate.
  - apply entropy_of_unit. repeat constructor; discriminate.
  - vm_compute. discriminate.
  - vm_compute. reflexivity.
Defined.

(* ================================================================= *)
(** ** The aligner, the constructor and the random source once more *)



(** X2.  [_init] stores an integer argument of magnitude below 2^53 as
    it is, and NaN as 0.  (From 10^21 on [toString] writes a number with
    an exponent, of which [parseInt] reads the leading digits only.) *)
Theorem init_stores_integers : forall a0 a1 a2 a3 a4 a5 : number,
  Forall safe_integer [a0; a1; a2; a3; a4; a5] ->
  let norm := fun a => match a with NaN => Num 0 | Num z => Num z end in
  intFields (_init a0 a1 a2 a3 a4 a5) = map norm [a0; a1; a2; a3; a4; a5]
  /\ _init a0 a1 a2 a3 a4 a5
     = _init (norm a0) (norm a1) (norm a2) (norm a3) (norm a4) (norm a5).
Proof.
  intros a0 a1 a2 a3 a4 a5 _ norm. subst norm. split.
  - unfold _init. cbn [intFields map].
    destruct a0, a1, a2, a3, a4, a5;
      change (or_zero NaN) with (or_zero (Num 0));
      now rewrite !init_int_value.
  - destruct a0, a1, a2, a3, a4, a5; reflexivity.
Qed.

Lemma init_stores_integers_witness :
  Forall safe_integer [NaN; Num 5; Num (-3); Num 0; Num (2 ^ 53 - 1); NaN]
  /\ intFields (_init NaN (Num 5) (Num (-3)) (Num 0) (Num (2 ^ 53 - 1)) NaN)
     = [Num 0; Num 5; Num (-3); Num 0; Num (2 ^ 53 - 1); Num 0].
Proof.
  assert (H : Forall safe_integer
                [NaN; Num 5; Num (-3); Num 0; Num (2 ^ 53 - 1); NaN]).
  { repeat constructor; reflexivity. }
  split; [exact H|].
  exact (proj1 (init_stores_integers _ _ _ _ _ _ H)).
Defined.

(** X5.  [_getRandomInt] leaves no value out: every integer of the asked
    width is returned for some draws of the random source. *)
Theorem getRandomInt_onto : forall x v,
  0 <= x <= 53 -> 0 <= v < 2 ^ x ->
  exists e, in_unit_interval e /\ fst (_getRandomInt x e) = Num v.
Proof.
  intros x v Hx Hv. unfold _getRandomInt.
  destruct (Z.ltb_spec x 0); [lia|].
  destruct (Z.leb_spec x 30).
  - assert (Hp : 0 < 2 ^ x <= 2 ^ 30).
    { split; [apply Z.pow_pos_nonneg; lia | apply Z.pow_le_mono_r; lia]. }
    exists (entropy_of [Qmake v (Z.to_pos (2 ^ x))]). split.
    + apply entropy_of_unit. repeat constructor; now apply unit_fraction.
    + rewrite shl32_1 by lia. now rewrite random_below_exact.
  - destruct (Z.leb_spec x 53); [|lia].
    assert (Hp : 0 < 2 ^ (x - 30) <= 2 ^ 30).
    { split; [apply Z.pow_pos_nonneg; lia | apply Z.pow_le_mono_r; lia]. }
    assert (Hsplit : 2 ^ x = 2 ^ (x - 30) * 2 ^ 30)
      by (rewrite <- Z.pow_add_r by lia; f_equal; lia).
    assert (H30 : 0 < 2 ^ 30) by reflexivity.
    assert (Ha : 0 <= v mod 2 ^ 30 < 2 ^ 30) by (apply Z.mod_pos_bound; lia).
    assert (Hb : 0 <= v / 2 ^ 30 < 2 ^ (x - 30)).
    { split; [apply Z.div_pos; lia|].
      apply Z.div_lt_upper_bound; [lia|]. rewrite Z.mul_comm. lia. }
    exists (entropy_of [Qmake (v mod 2 ^ 30) (Z.to_pos (2 ^ 30));
                        Qmake (v / 2 ^ 30) (Z.to_pos (2 ^ (x - 30)))]).
    split.
    + apply entropy_of_unit. repeat constructor; apply unit_fraction; lia.
    + rewrite !shl32_1 by lia. unfold bind.
      rewrite (random_below_exact (2 ^ 30) (v mod 2 ^ 30) _
                 (conj H30 (Z.le_refl _)) Ha).
      rewrite (random_below_exact _ _ _ Hp Hb).
      unfold ret, js_add, js_mul. cbn [fst]. f_equal.
      rewrite Z.add_comm, Z.mul_comm. symmetry. apply Z.div_mod. lia.
Qed.

Lemma getRandomInt_onto_witness :
  exists e, in_unit_interval e /\ fst (_getRandomInt 14 e) = Num 16383.
Proof. apply (getRandomInt_onto 14 16383); [lia | split; [lia | reflexivity]]. Defined.

(* ================================================================= *)
(** ** parse followed by toString *)

Lemma is_lower_hex_range : forall c, is_lower_hex c = true ->
  48 <= c <= 57 \/ 97 <= c <= 102.
Proof.
  intros c H. unfold is_lower_hex in H.
  apply orb_prop in H. destruct H as [H | H];
    apply andb_prop in H; destruct H as [H1 H2];
    apply Z.leb_le in H1; apply Z.leb_le in H2; lia.
Qed.

Lemma is_lower_hex_digit : forall c, is_lower_hex c = true ->
  exists d, digit_value c = Some d /\ 0 <= d < 16 /\ c = digit_char d.
Proof.
  intros c Hc. apply is_lower_hex_range in Hc.
  unfold digit_value, digit_char. destruct Hc as [H | H].
  - exists (c - 48).
    replace ((48 <=? c) && (c <=? 57)) with true
      by (symmetry; apply andb_true_intro; split; apply Z.leb_le; lia).
    destruct (Z.ltb_spec (c - 48) 10); [|lia].
    repeat split; lia.
  - exists (c - 87).
    replace ((48 <=? c) && (c <=? 57)) with false
      by (symmetry; apply andb_false_intro2; apply Z.leb_gt; lia).
    replace ((97 <=? c) && (c <=? 122)) with true
      by (symmetry; apply andb_true_intro; split; apply Z.leb_le; lia).
    destruct (Z.ltb_spec (c - 87) 10); [lia|].
    repeat split; lia.
Qed.

Lemma digit_char_is_lower_hex : forall d, 0 <= d < 16 ->
  is_lower_hex (digit_char d) = true.
Proof.
  intros d Hd. unfold is_lower_hex, digit_char.
  destruct (Z.ltb_spec d 10).
  - replace ((48 <=? 48 + d) && (48 + d <=? 57)) with true; [reflexivity|].
    symmetry; apply andb_true_intro; split; apply Z.leb_le; lia.
  - replace ((97 <=? 87 + d) && (87 + d <=? 102)) with true;
      [now rewrite orb_true_r|].
    symmetry; apply andb_true_intro; split; apply Z.leb_le; lia.
Qed.

Lemma to_digits_is_lower_hex : forall fuel n acc, 0 <= n ->
  forallb is_lower_hex acc = true ->
  forallb is_lower_hex (to_digits fuel 16 n acc) = true.
Proof.
  induction fuel as [|fuel IH]; intros n acc Hn Hacc; simpl; [exact Hacc|].
  assert (Hd : forallb is_lower_hex (digit_char (n mod 16) :: acc) = true).
  { simpl. rewrite Hacc, digit_char_is_lower_hex; [reflexivity|].
    apply Z.mod_pos_bound. lia. }
  destruct (n <? 16); [exact Hd|].
  apply IH; [apply Z.div_pos; lia | exact Hd].
Qed.

Lemma aligner_is_lower_hex : forall v len, 0 <= v ->
  forallb is_lower_hex (_hexAligner (Num v) len) = true.
Proof.
  intros v len Hv. unfold _hexAligner. rewrite aligner_eq, forallb_app.
  apply andb_true_intro. split.
  - induction (Z.to_nat _) as [|k IH]; [reflexivity | exact IH].
  - unfold integer_toString. destruct (Z.ltb_spec v 0); [lia|].
    now apply to_digits_is_lower_hex.
Qed.

(** Lower-case hex strings of one length are told apart by their value. *)
Lemma lower_hex_unique : forall g1 g2 a1 a2,
  forallb is_lower_hex g1 = true -> forallb is_lower_hex g2 = true ->
  List.length g1 = List.length g2 ->
  0 <= a1 -> 0 <= a2 ->
  hex_value a1 g1 = hex_value a2 g2 -> a1 = a2 /\ g1 = g2.
Proof.
  induction g1 as [|c1 g1 IH]; intros [|c2 g2] a1 a2 H1 H2 Hlen Ha1 Ha2 Hv;
    simpl in Hlen; try discriminate; [now split|].
  simpl in H1, H2. apply andb_prop in H1, H2.
  destruct H1 as [Hc1 H1], H2 as [Hc2 H2].
  destruct (is_lower_hex_digit c1 Hc1) as (d1 & Hd1 & Hr1 & E1).
  destruct (is_lower_hex_digit c2 Hc2) as (d2 & Hd2 & Hr2 & E2).
  simpl in Hv. rewrite Hd1, Hd2 in Hv.
  destruct (IH g2 (a1 * 16 + d1) (a2 * 16 + d2) H1 H2 ltac:(lia) ltac:(lia)
              ltac:(lia) Hv) as [Ha ->].
  assert (a1 = a2 /\ d1 = d2) as [-> ->] by lia.
  split; [reflexivity | now rewrite E1, E2].
Qed.

Lemma lower_char_hex : forall c, is_hex c = true ->
  is_lower_hex (lower_char c) = true
  /\ digit_value (lower_char c) = digit_value c.
Proof.
  intros c Hc. destruct (is_hex_digit c Hc) as (d & Hd & Hr).
  apply is_hex_range in Hc. rewrite Hd.
  assert (Hlow : lower_char c = digit_char d).
  { unfold lower_char, digit_char. unfold digit_value in Hd.
    destruct Hc as [H | [H | H]].
    - replace ((48 <=? c) && (c <=? 57)) with true in Hd
        by (symmetry; apply andb_true_intro; split; apply Z.leb_le; lia).
      injection Hd as <-.
      replace ((65 <=? c) && (c <=? 90)) with false
        by (symmetry; apply andb_false_intro1; apply Z.leb_gt; lia).
      destruct (Z.ltb_spec (c - 48) 10); lia.
    - replace ((48 <=? c) && (c <=? 57)) with false in Hd
        by (symmetry; apply andb_false_intro2; apply Z.leb_gt; lia).
      replace ((97 <=? c) && (c <=? 122)) with true in Hd
        by (symmetry; apply andb_true_intro; split; apply Z.leb_le; lia).
      injection Hd as <-.
      replace ((65 <=? c) && (c <=? 90)) with false
        by (symmetry; apply andb_false_intro2; apply Z.leb_gt; lia).
      destruct (Z.ltb_spec (c - 87) 10); lia.
    - replace ((48 <=? c) && (c <=? 57)) with false in Hd
        by (symmetry; apply andb_false_intro2; apply Z.leb_gt; lia).
      replace ((97 <=? c) && (c <=? 122)) with false in Hd
        by (symmetry; apply andb_false_intro1; apply Z.leb_gt; lia).
      replace ((65 <=? c) && (c <=? 90)) with true in Hd
        by (symmetry; apply andb_true_intro; split; apply Z.leb_le; lia).
      injection Hd as <-.
      replace ((65 <=? c) && (c <=? 90)) with true
        by (symmetry; apply andb_true_intro; split; apply Z.leb_le; lia).
      destruct (Z.ltb_spec (c - 55) 10); lia. }
  rewrite Hlow. split.
  - now apply digit_char_is_lower_hex.
  - apply digit_value_digit_char. lia.
Qed.

Lemma toLowerCase_hex : forall g a, forallb is_hex g = true ->
  forallb is_lower_hex (toLowerCase g) = true
  /\ hex_value a (toLowerCase g) = hex_value a g.
Proof.
  induction g as [|c g IH]; intros a Hg; [now split|].
  simpl in Hg. apply andb_prop in Hg. destruct Hg as [Hc Hg].
  destruct (lower_char_hex c Hc) as [Hl1 Hl2]. cbn [toLowerCase map forallb hex_value].
  rewrite Hl1, Hl2. apply IH. exact Hg.
Qed.

(** The digits [toString] writes for the value of a hex group are the
    group itself in lower case. *)
Lemma aligner_of_hex_value : forall n g,
  hex_group (S n) g ->
  _hexAligner (Num (hex_value 0 g)) (Z.of_nat (S n)) = toLowerCase g.
Proof.
  intros n g G. destruct (parseInt_hex_group n g G) as [_ Hb].
  destruct (hex_field _ n Hb) as [Ga Pa].
  destruct (parseInt_hex_group n _ Ga) as [Pa' _].
  rewrite Pa in Pa'. injection Pa' as Hval.
  destruct (toLowerCase_hex g 0 (proj2 G)) as [Hlow Hlv].
  apply (lower_hex_unique _ _ 0 0); try lia; try assumption.
  - apply aligner_is_lower_hex. lia.
  - rewrite (proj1 Ga). unfold toLowerCase. rewrite length_map.
    symmetry. apply G.
  - now rewrite Hlv.
Qed.

Lemma exec_decompose : forall s r,
  exec s = Some r ->
  exists w1 w2,
    white w1 /\ white w2
    /\ s = w1 ++ or_empty (group1 r)
              ++ (group2 r ++ lit "-" ++ group3 r ++ lit "-" ++ group4 r
                    ++ lit "-" ++ group5 r ++ group6 r ++ lit "-" ++ group7 r)
              ++ or_empty (group8 r) ++ w2.
Proof.
  intros s r H. unfold exec in H.
  destruct (skip_spaces_inv s) as (w1 & Hs & Hw1).
  set (s1 := skip_spaces s) in *.
  assert (Hbody : forall l rest,
            match_body l rest = Some r -> s1 = or_empty l ++ rest ->
            exists w1 w2,
              white w1 /\ white w2
              /\ s = w1 ++ or_empty (group1 r)
                        ++ (group2 r ++ lit "-" ++ group3 r ++ lit "-"
                              ++ group4 r ++ lit "-" ++ group5 r ++ group6 r
                              ++ lit "-" ++ group7 r)
                        ++ or_empty (group8 r) ++ w2).
  { intros l rest Hm Hs1.
    destruct (match_body_inv l rest r Hm)
      as (g2 & g3 & g4 & g5 & g6 & g7 & tail & t & -> & Ht & -> & _).
    destruct (match_tail_inv tail t Ht) as (w2 & -> & Hw2 & _).
    exists w1, w2. cbn [group1 group2 group3 group4 group5 group6 group7 group8].
    split; [exact Hw1|]. split; [exact Hw2|].
    rewrite Hs at 1. rewrite Hs1. repeat rewrite <- app_assoc. reflexivity. }
  destruct (take_ci (lit "urn:uuid:") s1) as [[l rest]|] eqn:E1.
  - destruct (take_ci_inv _ _ _ _ E1) as [Hs1 Hl].
    destruct (match_body (Some l) rest) as [r'|] eqn:E2.
    + simpl in H. injection H as ->. now apply (Hbody (Some l) rest E2).
    + simpl in H. destruct (take_char 123 s1) as [rest'|] eqn:E3.
      * apply take_char_inv in E3.
        destruct (match_body (Some (lit "{")) rest') as [r'|] eqn:E4.
        -- simpl in H. injection H as ->.
           now apply (Hbody (Some (lit "{")) rest' E4).
        -- simpl in H. now apply (Hbody None s1 H).
      * simpl in H. now apply (Hbody None s1 H).
  - simpl in H. destruct (take_char 123 s1) as [rest'|] eqn:E3.
    + apply take_char_inv in E3.
      destruct (match_body (Some (lit "{")) rest') as [r'|] eqn:E4.
      * simpl in H. injection H as ->.
        now apply (Hbody (Some (lit "{")) rest' E4).
      * simpl in H. now apply (Hbody None s1 H).
    + simpl in H. now apply (Hbody None s1 H).
Qed.

(** X11.  What [parse] accepts is a 36-character body, in one of the three
    accepted wrappings and with white space around it, and the string
    of the identifier it returns is that body in lower case. *)
Theorem parse_then_toString : forall text u,
  parse text = Some u ->
  exists w1 pre body suf w2,
    text = w1 ++ pre ++ body ++ suf ++ w2
    /\ white w1 /\ white w2 /\ consistent pre suf
    /\ js_length body = 36
    /\ toString u = toLowerCase body.
Proof.
  intros text u H. unfold parse in H.
  destruct (exec text) as [r|] eqn:E; [|discriminate].
  destruct (exec_groups text r E) as (G2 & G3 & G4 & G5 & G6 & G7).
  destruct (exec_decompose text r E) as (w1 & w2 & Hw1 & Hw2 & Htext).
  pose proof (pairing_check (or_empty (group1 r)) (or_empty (group8 r))) as Hp.
  match type of H with
  | (if ?c then _ else _) = _ => destruct c; [|discriminate H]
  end.
  injection H as <-.
  destruct (parseInt_hex_group 7 _ G2) as [P2 _].
  destruct (parseInt_hex_group 3 _ G3) as [P3 _].
  destruct (parseInt_hex_group 3 _ G4) as [P4 _].
  destruct (parseInt_hex_group 1 _ G5) as [P5 _].
  destruct (parseInt_hex_group 1 _ G6) as [P6 _].
  destruct (parseInt_hex_group 11 _ G7) as [P7 _].
  rewrite P2, P3, P4, P5, P6, P7.
  eexists w1, _, _, _, w2. split; [exact Htext|].
  split; [exact Hw1|]. split; [exact Hw2|].
  split; [now apply Hp|]. split.
  - unfold js_length. rewrite !length_app.
    rewrite (proj1 G2), (proj1 G3), (proj1 G4), (proj1 G5), (proj1 G6),
      (proj1 G7). reflexivity.
  - unfold toString. rewrite init_hexString.
    rewrite (aligner_of_hex_value 7 _ G2), (aligner_of_hex_value 3 _ G3),
      (aligner_of_hex_value 3 _ G4), (aligner_of_hex_value 1 _ G5),
      (aligner_of_hex_value 1 _ G6), (aligner_of_hex_value 11 _ G7).
    unfold toLowerCase. rewrite !map_app. reflexivity.
Qed.

Lemma parse_then_toString_witness :
  exists w1 pre body suf w2,
    lit " {01234567-89AB-4DEF-8123-456789abcdef}"
    = w1 ++ pre ++ body ++ suf ++ w2
    /\ white w1 /\ white w2 /\ consistent pre suf
    /\ js_length body = 36
    /\ toString (_init (Num 19088743) (Num 35243) (Num 19951)
                       (Num 129) (Num 35) (Num 76310993685999))
       = toLowerCase body.
Proof.
  apply (parse_then_toString (lit " {01234567-89AB-4DEF-8123-456789abcdef}")).
  vm_compute. reflexivity.
Defined.

(** X4.  On identifiers within the field widths [equals] is equality of the
    canonical strings. *)
Theorem equals_iff_same_string : forall a b c d e f a' b' c' d' e' f',
  in_width a b c d e f -> in_width a' b' c' d' e' f' ->
  let u := _init (Num a) (Num b) (Num c) (Num d) (Num e) (Num f) in
  let v := _init (Num a') (Num b') (Num c') (Num d') (Num e') (Num f') in
  equals u (JsUUID v) = true <-> toString u = toString v.
Proof.
  intros a b c d e f a' b' c' d' e' f' Hw Hw' u v. subst u v.
  rewrite equals_true_iff by apply init_six_integers.
  rewrite !init_intFields. unfold toString. split.
  - intros H. injection H as -> -> -> -> -> ->. reflexivity.
  - intros H.
    pose proof (parse_wrapped _ _ _ _ _ _ [] [] [] [] Hw eq_refl eq_refl
                  (or_introl eq_refl) (or_introl eq_refl)
                  (or_introl (conj eq_refl eq_refl))) as Hp.
    pose proof (parse_wrapped _ _ _ _ _ _ [] [] [] [] Hw' eq_refl eq_refl
                  (or_introl eq_refl) (or_introl eq_refl)
                  (or_introl (conj eq_refl eq_refl))) as Hp'.
    cbn [app] in Hp, Hp'. rewrite app_nil_r in Hp, Hp'.
    rewrite H, Hp' in Hp.
    apply (f_equal (option_map intFields)) in Hp. cbn [option_map] in Hp.
    rewrite !init_intFields in Hp. injection Hp as -> -> -> -> -> ->.
    reflexivity.
Qed.

Lemma equals_iff_same_string_witness :
  equals nil_uuid (JsUUID nil_uuid) = true
  <-> toString nil_uuid = toString nil_uuid.
Proof.
  assert (Hw : in_width 0 0 0 0 0 0) by (unfold in_width; repeat split; lia).
  apply (equals_iff_same_string 0 0 0 0 0 0 0 0 0 0 0 0 Hw Hw).
Defined.
